(** * Whisper WPM / background-noise evaluation: the batch evaluator

    A shallow embedding of [evaluate.py] and the properties of its
    normaliser, metric computation, batch loop and summary writer.

    Conventions of the embedding.
    - A Python [str] is a [string]: a sequence of code points 0..255 (the
      Latin-1 block of Unicode).  On that block the character classes used
      by [str.lower], [str.split], [str.strip] and the regular-expression
      classes [\w] and [\s] are written out below, code point by code point.
    - A Python [float] produced by a division of two integers is the
      rational number it rounds; metrics are values of [Q].
    - [print] and file writes are recorded, in order, in a list of events.
    - An exception is a value of [exn]; a computation that may print and
      may raise is a value of [M A]. *)

From Stdlib Require Import Ascii String ZArith NArith QArith Qminmax Lia.
From stdpp Require Import base option list strings gmap.
From Stdlib Require Import Sorted.

Local Open Scope string_scope.
Local Open Scope list_scope.

(** ** Characters *)

Definition code (c : ascii) : N := N_of_ascii c.

Definition in_range (lo hi : N) (c : ascii) : bool :=
  ((lo <=? code c) && (code c <=? hi))%N.

(** The code points whose [str.lower()] differs from themselves: A-Z and the
    Latin-1 capitals U+00C0..U+00DE without the multiplication sign. *)
Definition is_upper (c : ascii) : bool :=
  in_range 65 90 c || in_range 192 214 c || in_range 216 222 c.

Definition lower_char (c : ascii) : ascii :=
  if is_upper c then ascii_of_N (code c + 32) else c.

(** [str.isspace], which is also the class [\s] of a [str] pattern. *)
Definition is_space (c : ascii) : bool :=
  in_range 9 13 c || in_range 28 32 c || (code c =? 133)%N || (code c =? 160)%N.

(** The class [\w] of a [str] pattern: alphanumeric code points and the
    underscore. *)
Definition is_word (c : ascii) : bool :=
  in_range 48 57 c || in_range 65 90 c || (code c =? 95)%N
  || in_range 97 122 c || (code c =? 170)%N || in_range 178 179 c
  || (code c =? 181)%N || in_range 185 186 c || in_range 188 190 c
  || in_range 192 214 c || in_range 216 246 c || in_range 248 255 c.

Definition apostrophe : ascii := "'"%char.

(** A character survives [re.sub(r"[^\w\s']", "", text)] when it is outside
    the negated class. *)
Definition kept (c : ascii) : bool :=
  is_word c || is_space c || bool_decide (c = apostrophe).

(** ** Sequences of characters *)

Abbreviation chars := (list ascii).

(** [str.split()] without arguments: the maximal runs of non-whitespace. *)
Fixpoint split (s : chars) : list chars :=
  match s with
  | [] => []
  | c :: s' =>
      if is_space c then split s'
      else match s' with
           | [] => [[c]]
           | d :: _ =>
               if is_space d then [c] :: split s'
               else match split s' with
                    | w :: ws => (c :: w) :: ws
                    | [] => [[c]]
                    end
           end
  end.

(** [sep.join(ws)]. *)
Fixpoint join (sep : chars) (ws : list chars) : chars :=
  match ws with
  | [] => []
  | [w] => w
  | w :: ws' => w ++ sep ++ join sep ws'
  end.

Fixpoint lstrip (s : chars) : chars :=
  match s with
  | [] => []
  | c :: s' => if is_space c then lstrip s' else s
  end.
Definition rstrip (s : chars) : chars := rev (lstrip (rev s)).
Definition strip (s : chars) : chars := rstrip (lstrip s).

Definition re_sub_punct (s : chars) : chars := filter (λ c, kept c = true) s.

Definition normalize_chars (s : chars) : chars :=
  let s := map lower_char s in
  let s := re_sub_punct s in
  join [" "%char] (split s).

(** ** [normalize_text] *)

Definition normalize_text (text : string) : string :=
  string_of_list_ascii (normalize_chars (list_ascii_of_string text)).

Definition str_split (text : string) : list string :=
  map string_of_list_ascii (split (list_ascii_of_string text)).

Definition str_strip (text : string) : string :=
  string_of_list_ascii (strip (list_ascii_of_string text)).


(** ** Exceptions, console and file events *)

Inductive exn : Type :=
  | ValueError (msg : string)
  | OSError (path : string)
  | ConnectionError
  | JSONDecodeError
  | TranscriptionFailed (status_code : Z) (body : string).

Inductive outcome (A : Type) : Type :=
  | Returned (a : A)
  | Raised (e : exn).
Arguments Returned {A} a.
Arguments Raised {A} e.

(** ** The metric library

    Modelled from the spec: the functions [wer] and [cer] of the jiwer
    library, which [evaluate.py] imports and which is not part of the
    repository.  Following section 4.2, an error rate is the minimum number
    of unit-cost substitutions, insertions and deletions that turn the
    reference into the hypothesis, divided by the reference length; the
    sequences are whitespace-delimited tokens for WER and characters for
    CER; an empty reference is an error. *)
Module jiwer.

Section Levenshtein.
Context {A : Type} `{EqDecision A}.

Definition subst_cost (x y : A) : nat := if decide (x = y) then 0 else 1.

(** The recurrence of the minimum edit distance. *)
Fixpoint lev (s : list A) : list A → nat :=
  match s with
  | [] => λ t, length t
  | x :: s' =>
      fix lev_x (t : list A) : nat :=
        match t with
        | [] => S (length s')
        | y :: t' =>
            Nat.min (Nat.min (S (lev s' t)) (S (lev_x t')))
                    (subst_cost x y + lev s' t')
        end
  end.

(** The same number computed row by row, in time [|s| * |t|]: [rows s t]
    lists the distance from [s] to every suffix of [t], longest first. *)
Fixpoint suffixes (t : list A) : list (list A) :=
  match t with
  | [] => [[]]
  | _ :: t' => t :: suffixes t'
  end.

Fixpoint suffix_lengths (t : list A) : list nat :=
  match t with
  | [] => [0]
  | _ :: t' => length t :: suffix_lengths t'
  end.

Fixpoint next_row (x : A) (t : list A) (prev : list nat) : list nat :=
  match t, prev with
  | y :: t', p0 :: ((p1 :: _) as prev') =>
      match next_row x t' prev' with
      | r0 :: r =>
          Nat.min (Nat.min (S p0) (S r0)) (subst_cost x y + p1) :: r0 :: r
      | [] => []
      end
  | [], [p] => [S p]
  | _, _ => []
  end.

Fixpoint rows (s t : list A) : list nat :=
  match s with
  | [] => suffix_lengths t
  | x :: s' => next_row x t (rows s' t)
  end.

Definition edit_distance (s t : list A) : nat := hd 0 (rows s t).

Definition error_rate (ref hyp : list A) : outcome Q :=
  match ref with
  | [] => Raised (ValueError "one or more references are empty strings")
  | _ :: _ =>
      Returned (Z.of_nat (edit_distance ref hyp) # Pos.of_nat (length ref))%Q
  end.
End Levenshtein.

Definition wer (reference hypothesis : string) : outcome Q :=
  error_rate (str_split reference) (str_split hypothesis).

Definition cer (reference hypothesis : string) : outcome Q :=
  error_rate (list_ascii_of_string reference) (list_ascii_of_string hypothesis).

End jiwer.

(** ** [calculate_metrics] *)

Record metrics : Type := {
  wer : Q;
  cer : Q;
  reference_words : nat;
  hypothesis_words : nat;
}.

Definition calculate_metrics (reference hypothesis : string) : outcome metrics :=
  let ref_norm := normalize_text reference in
  let hyp_norm := normalize_text hypothesis in
  match jiwer.wer ref_norm hyp_norm with
  | Raised e => Raised e
  | Returned w =>
      match jiwer.cer ref_norm hyp_norm with
      | Raised e => Raised e
      | Returned c =>
          Returned {| wer := w; cer := c;
                      reference_words := length (str_split ref_norm);
                      hypothesis_words := length (str_split hyp_norm) |}
      end
  end.

(** ** Data model *)

(** One line of [metadata.jsonl], read with [record.get(key, default)]: a
    field is [None] when the key is absent from the JSON object. *)
Record recording : Type := {
  rec_id : option string;
  rec_audio : option string;
  rec_sample_file : option string;
  rec_sample : option string;
  rec_annotations : option (gmap string string);
  rec_duration_seconds : option Q;
}.

(** One element of the list built by [run_evaluation]. *)
Record result : Type := {
  res_id : string;
  res_sample : string;
  res_sample_file : string;
  res_annotations : gmap string string;
  res_duration_seconds : Q;
  res_transcription : string;
  res_reference : string;
  res_metrics : metrics;
}.

Record transcript_entry : Type := {
  te_id : string;
  te_transcription : string;
  te_wer : Q;
}.

Record group_stats : Type := {
  count : nat;
  group_avg_wer : Q;
}.

(** The dictionaries of the summary keep insertion order, as Python's do. *)
Record summary : Type := {
  timestamp : string;
  total_recordings : nat;
  avg_wer : Q;
  avg_cer : Q;
  min_wer : Q;
  max_wer : Q;
  by_pace : list (string * group_stats);
  by_background : list (string * group_stats);
}.

(** What the transcription endpoint answers to an upload. [json] is the
    body parsed as a JSON object, [None] when [response.json()] fails. *)
Record response : Type := {
  status_code : Z;
  text : string;
  json : option (gmap string string);
}.

Inductive reply : Type :=
  | ConnectionFailed
  | Response (r : response).

Inductive metadata_line : Type :=
  | Blank
  | Json (record : recording).

(** Everything outside the process that [evaluate.py] reads. *)
Record world : Type := {
  environ : gmap string string;
  dotenv : gmap string string;
  metadata_file : option (list metadata_line);
  audio_files : gset string;
  samples : gmap string string;
  api : string → reply;
}.

(** Console lines and file writes, in the order the program performs them.
    [PrintSummaryHeader] stands for the three lines of the banner; a
    [stamp] is the run timestamp that names the file. *)
Inductive event : Type :=
  | PrintLoadingMetadata
  | PrintFound (n : nat)
  | PrintProcessing (i total : nat) (record_id : string)
  | PrintWarningAudioNotFound (audio_path : string)
  | PrintTranscribing (audio_path : string)
  | PrintOK
  | PrintErrorStatus (status_code : Z)
  | PrintError (e : exn)
  | PrintWerCer (w c : Q)
  | Mkdir
  | WriteResults (stamp : string) (rs : list result)
  | PrintResultsSaved (stamp : string)
  | WriteTranscripts (stamp : string) (entries : list transcript_entry)
  | PrintTranscriptsSaved (stamp : string)
  | WriteSummary (stamp : string) (s : summary)
  | PrintSummarySaved (stamp : string)
  | PrintSummaryHeader
  | PrintTotal (n : nat)
  | PrintAverageWer (q : Q)
  | PrintAverageCer (q : Q)
  | PrintWerRange (lo hi : Q)
  | PrintByPace
  | PrintByBackground
  | PrintGroup (key : string) (stats : group_stats).

(** ** Computations that print and may raise *)

Definition M (A : Type) : Type := list event * outcome A.

Definition ret {A} (a : A) : M A := ([], Returned a).

Definition bind {A B} (m : M A) (f : A → M B) : M B :=
  match m with
  | (out, Returned a) => let '(out', r) := f a in (out ++ out', r)
  | (out, Raised e) => (out, Raised e)
  end.

Definition emit (ev : event) : M unit := ([ev], Returned tt).

Definition raise {A} (e : exn) : M A := ([], Raised e).

Definition lift {A} (r : outcome A) : M A := ([], r).

(** [try: m  except Exception as e: handler e]. *)
Definition try_except {A} (m : M A) (handler : exn → M A) : M A :=
  match m with
  | (out, Returned a) => (out, Returned a)
  | (out, Raised e) => let '(out', r) := handler e in (out ++ out', r)
  end.

Declare Scope eval_scope.
Delimit Scope eval_scope with eval.
Notation "x <- m ;; k" := (bind m (λ x, k))
  (at level 100, m at next level, right associativity) : eval_scope.
Notation "m ;;; k" := (bind m (λ _, k))
  (at level 100, right associativity) : eval_scope.
Local Open Scope eval_scope.

(** [for i, x in enumerate(xs, i0): st = body i x st]. *)
Fixpoint for_enumerate {A St} (body : nat → A → St → M St)
    (i : nat) (xs : list A) (st : St) : M St :=
  match xs with
  | [] => ret st
  | x :: xs' => st' <- body i x st;; for_enumerate body (S i) xs' st'
  end.

(** ** Start-up: the credential *)

(** [load_dotenv()] adds the entries of [.env] for the variables that the
    process environment does not define. *)
Definition load_dotenv (w : world) : gmap string string := environ w ∪ dotenv w.

(** The statements at the top of the module: [os.environ.get] and the check
    [if not FIREWORKS_API_KEY], which an empty value fails as well. *)
Definition module_init (w : world) : M string :=
  match load_dotenv w !! "FIREWORKS_API_KEY" with
  | Some key =>
      if decide (key = "")
      then raise (ValueError "FIREWORKS_API_KEY not found in environment")
      else ret key
  | None => raise (ValueError "FIREWORKS_API_KEY not found in environment")
  end.

(** ** Loading *)

Definition load_ground_truth (w : world) (sample_file : string) : M string :=
  match samples w !! sample_file with
  | Some content => ret (str_strip content)
  | None => raise (OSError sample_file)
  end.

Definition load_metadata (w : world) : M (list recording) :=
  match metadata_file w with
  | Some lines =>
      ret (omap (λ line, match line with Blank => None | Json r => Some r end) lines)
  | None => raise (OSError "metadata.jsonl")
  end.

(** ** [transcribe_audio] *)

Definition transcribe_audio (w : world) (audio_path : string) : M string :=
  emit (PrintTranscribing audio_path);;;
  if decide (audio_path ∈ audio_files w) then
    match api w audio_path with
    | ConnectionFailed => raise ConnectionError
    | Response response =>
        if decide (status_code response = 200%Z) then
          match json response with
          | Some result => emit PrintOK;;; ret (default "" (result !! "text"))
          | None => raise JSONDecodeError
          end
        else
          emit (PrintErrorStatus (status_code response));;;
          raise (TranscriptionFailed (status_code response) (text response))
    end
  else raise (OSError audio_path).

(** ** [run_evaluation] *)

Record loop_state : Type := {
  ground_truths : gmap string string;
  results : list result;
}.

(** [record.get("id", "unknown")], [record.get("audio", f"audio/{id}.wav")]
    and [record.get("sample_file", "")]. *)
Definition record_id_of (record : recording) : string :=
  default "unknown" (rec_id record).

Definition audio_path_of (record : recording) : string :=
  default ("audio/" +:+ record_id_of record +:+ ".wav") (rec_audio record).

Definition sample_file_of (record : recording) : string :=
  default "" (rec_sample_file record).

(** [if sample_file not in ground_truths: ground_truths[sample_file] =
    load_ground_truth(sample_file)] and [reference =
    ground_truths[sample_file]]: the cache after the block, and the
    reference. *)
Definition cached_ground_truth (w : world) (cache : gmap string string)
    (sample_file : string) : M (gmap string string * string) :=
  match cache !! sample_file with
  | Some reference => ret (cache, reference)
  | None =>
      reference <- load_ground_truth w sample_file;;
      ret (<[sample_file := reference]> cache, reference)
  end.

(** The body of the [for] loop; [continue] is the return of the state. *)
Definition process_record (w : world) (total i : nat) (record : recording)
    (st : loop_state) : M loop_state :=
  let record_id := record_id_of record in
  let audio_rel_path := audio_path_of record in
  let sample_file := sample_file_of record in
  emit (PrintProcessing i total record_id);;;
  if decide (audio_rel_path ∈ audio_files w) then
    cached <- cached_ground_truth w (ground_truths st) sample_file;;
    let '(ground_truths', reference) := cached in
    attempt <- try_except
                 (transcription <- transcribe_audio w audio_rel_path;;
                  ret (Some transcription))
                 (λ e, emit (PrintError e);;; ret None);;
    match attempt with
    | None => ret {| ground_truths := ground_truths'; results := results st |}
    | Some transcription =>
        metrics <- lift (calculate_metrics reference transcription);;
        let result :=
          {| res_id := record_id;
             res_sample := default "" (rec_sample record);
             res_sample_file := sample_file;
             res_annotations := default ∅ (rec_annotations record);
             res_duration_seconds := default 0%Q (rec_duration_seconds record);
             res_transcription := transcription;
             res_reference := reference;
             res_metrics := metrics |} in
        emit (PrintWerCer (wer metrics) (cer metrics));;;
        ret {| ground_truths := ground_truths'; results := results st ++ [result] |}
    end
  else
    emit (PrintWarningAudioNotFound audio_rel_path);;;
    ret st.

Definition initial_state : loop_state := {| ground_truths := ∅; results := [] |}.

Definition run_evaluation (w : world) : M (list result) :=
  emit PrintLoadingMetadata;;;
  records <- load_metadata w;;
  emit (PrintFound (length records));;;
  st <- for_enumerate (process_record w (length records)) 1 records initial_state;;
  ret (results st).

(** ** [save_results] *)

(** [sum(xs) / len(xs)], [min(xs)] and [max(xs)]; the program applies them to
    non-empty lists only. *)
Definition mean (xs : list Q) : Q :=
  (foldl Qplus 0 xs / inject_Z (Z.of_nat (length xs)))%Q.

Definition minimum (xs : list Q) : Q :=
  match xs with [] => 0%Q | x :: xs' => foldl Qmin x xs' end.

Definition maximum (xs : list Q) : Q :=
  match xs with [] => 0%Q | x :: xs' => foldl Qmax x xs' end.

(** [if key not in groups: groups[key] = []] then [groups[key].append(w)]. *)
Fixpoint group_append (key : string) (w : Q) (groups : list (string * list Q))
    : list (string * list Q) :=
  match groups with
  | [] => [(key, [w])]
  | (k, ws) :: rest =>
      if decide (k = key) then (k, ws ++ [w]) :: rest
      else (k, ws) :: group_append key w rest
  end.

Definition group_by (field : string) (rs : list result) : list (string * list Q) :=
  foldl (λ groups r,
           group_append (default "unknown" (res_annotations r !! field))
                        (wer (res_metrics r)) groups)
        [] rs.

Definition group_summary (groups : list (string * list Q))
    : list (string * group_stats) :=
  map (λ g, (g.1, {| count := length g.2; group_avg_wer := mean g.2 |})) groups.

Definition make_summary (stamp : string) (rs : list result) : summary :=
  let wers := map (λ r, wer (res_metrics r)) rs in
  let cers := map (λ r, cer (res_metrics r)) rs in
  {| timestamp := stamp;
     total_recordings := length rs;
     avg_wer := mean wers;
     avg_cer := mean cers;
     min_wer := minimum wers;
     max_wer := maximum wers;
     by_pace := group_summary (group_by "pace" rs);
     by_background := group_summary (group_by "background_noise" rs) |}.

(** [sorted(d.items())]: insertion sort on the keys. *)
Fixpoint insert_sorted {V} (kv : string * V) (l : list (string * V))
    : list (string * V) :=
  match l with
  | [] => [kv]
  | kv' :: l' =>
      if String.leb kv.1 kv'.1 then kv :: l else kv' :: insert_sorted kv l'
  end.

Definition sorted_items {V} (l : list (string * V)) : list (string * V) :=
  foldr insert_sorted [] l.

Definition print_groups (groups : list (string * group_stats)) : M unit :=
  (map (λ g, PrintGroup g.1 g.2) (sorted_items groups), Returned tt).

Definition save_results (stamp : string) (rs : list result) : M unit :=
  emit Mkdir;;;
  emit (WriteResults stamp rs);;;
  emit (PrintResultsSaved stamp);;;
  emit (WriteTranscripts stamp
          (map (λ r, {| te_id := res_id r;
                        te_transcription := res_transcription r;
                        te_wer := wer (res_metrics r) |}) rs));;;
  emit (PrintTranscriptsSaved stamp);;;
  match rs with
  | [] => ret tt
  | _ :: _ =>
      let s := make_summary stamp rs in
      emit (WriteSummary stamp s);;;
      emit (PrintSummarySaved stamp);;;
      emit PrintSummaryHeader;;;
      emit (PrintTotal (total_recordings s));;;
      emit (PrintAverageWer (avg_wer s));;;
      emit (PrintAverageCer (avg_cer s));;;
      emit (PrintWerRange (min_wer s) (max_wer s));;;
      emit PrintByPace;;;
      print_groups (by_pace s);;;
      emit PrintByBackground;;;
      print_groups (by_background s)
  end.

(** ** The program *)

Definition main (w : world) (stamp : string) : M unit :=
  module_init w;;;
  rs <- run_evaluation w;;
  save_results stamp rs.

(** * Vocabulary of the properties *)

(** A token: a non-empty run of non-whitespace characters. *)
Definition token (w : chars) : Prop :=
  w ≠ [] ∧ Forall (λ c, is_space c = false) w.

(** A character as [normalize_text] leaves it: lowercase and outside the
    class that [re.sub] deletes. *)
Definition normal_char (c : ascii) : Prop :=
  lower_char c = c ∧ kept c = true.

(** The tokens that [normalize_text] joins. *)
Definition normal_tokens (s : chars) : list chars :=
  split (re_sub_punct (map lower_char s)).

(** The sum of the [count] fields of a dictionary of group statistics. *)
Definition sum_counts (groups : list (string * group_stats)) : nat :=
  foldr (λ g n, count g.2 + n)%nat 0%nat groups.

(** The number of error rates held by a dictionary of groups. *)
Definition sum_lengths (groups : list (string * list Q)) : nat :=
  foldr (λ g n, length g.2 + n)%nat 0%nat groups.

(** What [save_results] writes and prints under [if results:]. *)
Definition summary_events (stamp : string) (s : summary) : list event :=
  [WriteSummary stamp s; PrintSummarySaved stamp; PrintSummaryHeader;
   PrintTotal (total_recordings s); PrintAverageWer (avg_wer s);
   PrintAverageCer (avg_cer s); PrintWerRange (min_wer s) (max_wer s);
   PrintByPace]
  ++ map (λ g, PrintGroup g.1 g.2) (sorted_items (by_pace s))
  ++ PrintByBackground
  :: map (λ g, PrintGroup g.1 g.2) (sorted_items (by_background s)).

(** Loop invariant: every cached reference is the stripped content of its
    sample file. *)
Definition consistent (w : world) (cache : gmap string string) : Prop :=
  ∀ f t, cache !! f = Some t →
         ∃ content, samples w !! f = Some content ∧ t = str_strip content.

(** A record that goes through the whole loop body: its audio file exists,
    its sample file is readable and is not empty once normalised, and the
    service answers 200 with a JSON object. *)
Definition scores (w : world) (record : recording) : Prop :=
  audio_path_of record ∈ audio_files w
  ∧ ∃ content r result,
      samples w !! sample_file_of record = Some content
      ∧ normalize_text (str_strip content) ≠ ""
      ∧ api w (audio_path_of record) = Response r
      ∧ status_code r = 200%Z
      ∧ json r = Some result.

(** ** Sample inputs *)

Definition demo_metrics (w : Q) : metrics :=
  {| wer := w; cer := w; reference_words := 4; hypothesis_words := 4 |}.

Definition demo_result (name : string) (annotations : gmap string string) (w : Q)
    : result :=
  {| res_id := name; res_sample := "sample"; res_sample_file := "sample.txt";
     res_annotations := annotations; res_duration_seconds := 10%Q;
     res_transcription := "the quick red fox";
     res_reference := "the quick brown fox";
     res_metrics := demo_metrics w |}.

Definition demo_results : list result :=
  [demo_result "rec1" {["pace" := "fast"; "background_noise" := "cafe"]} (1 # 4)%Q;
   demo_result "rec2" {["pace" := "slow"]} 0%Q;
   demo_result "rec3" ∅ (1 # 2)%Q;
   demo_result "rec4" {["pace" := "fast"]} 0%Q].

Definition demo_recording (name sample_file : string) : recording :=
  {| rec_id := Some name;
     rec_audio := None;
     rec_sample_file := Some sample_file;
     rec_sample := Some "sample";
     rec_annotations := Some {["pace" := "fast"]};
     rec_duration_seconds := Some 10%Q |}.

Definition demo_ok : response :=
  {| status_code := 200; text := "ok";
     json := Some {["text" := "The quick red fox."]} |}.

Definition demo_unavailable : response :=
  {| status_code := 503; text := "Service Unavailable"; json := None |}.

Definition demo_world (audio : gset string) (texts : gmap string string)
    (service : string → reply) : world :=
  {| environ := {["FIREWORKS_API_KEY" := "secret"]};
     dotenv := ∅;
     metadata_file :=
       Some [Json (demo_recording "rec1" "fox.txt"); Blank;
             Json (demo_recording "rec2" "dog.txt");
             Json (demo_recording "rec3" "fox.txt")];
     audio_files := audio;
     samples := texts;
     api := service |}.

Definition demo_texts : gmap string string :=
  {["fox.txt" := "  The quick brown fox. "; "dog.txt" := "The lazy dog."]}.

Definition world_missing_audio : world :=
  demo_world {["audio/rec1.wav"; "audio/rec3.wav"]} demo_texts (λ _, Response demo_ok).

Definition world_unavailable : world :=
  demo_world {["audio/rec1.wav"; "audio/rec2.wav"; "audio/rec3.wav"]} demo_texts
    (λ path, if decide (path = "audio/rec2.wav")
             then Response demo_unavailable else Response demo_ok).

Definition world_missing_sample : world :=
  demo_world {["audio/rec1.wav"; "audio/rec2.wav"; "audio/rec3.wav"]}
    {["fox.txt" := "  The quick brown fox. "]} (λ _, Response demo_ok).

Definition world_no_credential : world :=
  {| environ := {["HOME" := "/root"]};
     dotenv := {["OTHER_KEY" := "value"]};
     metadata_file := metadata_file world_missing_audio;
     audio_files := audio_files world_missing_audio;
     samples := samples world_missing_audio;
     api := api world_missing_audio |}.

(** ** Vocabulary of the further properties *)

Definition empty_reference : exn :=
  ValueError "one or more references are empty strings".

(** [result] is what the loop body appends for [record]. *)
Definition result_of (w : world) (record : recording) (result : result) : Prop :=
  res_id result = record_id_of record
  ∧ res_sample result = default "" (rec_sample record)
  ∧ res_sample_file result = sample_file_of record
  ∧ res_annotations result = default ∅ (rec_annotations record)
  ∧ res_duration_seconds result = default 0%Q (rec_duration_seconds record)
  ∧ audio_path_of record ∈ audio_files w
  ∧ (∃ content, samples w !! sample_file_of record = Some content
                ∧ res_reference result = str_strip content)
  ∧ (∃ r obj, api w (audio_path_of record) = Response r
              ∧ status_code r = 200%Z ∧ json r = Some obj
              ∧ res_transcription result = default "" (obj !! "text"))
  ∧ calculate_metrics (res_reference result) (res_transcription result)
    = Returned (res_metrics result).

(** The two errors that the loop body lets through for [record]. *)
Definition escapes (w : world) (record : recording) (e : exn) : Prop :=
  audio_path_of record ∈ audio_files w
  ∧ ((e = OSError (sample_file_of record)
      ∧ samples w !! sample_file_of record = None)
     ∨ (e = empty_reference
        ∧ ∃ content, samples w !! sample_file_of record = Some content
                     ∧ normalize_text (str_strip content) = "")).

Definition is_file_event (ev : event) : bool :=
  match ev with
  | Mkdir | WriteResults _ _ | WriteTranscripts _ _ | WriteSummary _ _ => true
  | _ => false
  end.

Definition world_bad_json : world :=
  demo_world {["audio/rec1.wav"; "audio/rec2.wav"; "audio/rec3.wav"]} demo_texts
    (λ path, if decide (path = "audio/rec2.wav")
             then Response {| status_code := 200; text := "<html>"; json := None |}
             else Response demo_ok).

Definition world_blank_sample : world :=
  demo_world {["audio/rec1.wav"; "audio/rec2.wav"; "audio/rec3.wav"]}
    {["fox.txt" := "  The quick brown fox. "; "dog.txt" := " ... "]}
    (λ _, Response demo_ok).

Definition demo_records : list recording :=
  [demo_recording "rec1" "fox.txt"; demo_recording "rec2" "dog.txt";
   demo_recording "rec3" "fox.txt"].

(** The value of a computation that returned, the empty list otherwise. *)
Definition returned_results (m : M (list result)) : list result :=
  match m.2 with
  | Returned rs => rs
  | Raised _ => []
  end.

Definition world_empty_credential : world :=
  {| environ := {["FIREWORKS_API_KEY" := ""]};
     dotenv := ∅;
     metadata_file := metadata_file world_missing_audio;
     audio_files := audio_files world_missing_audio;
     samples := samples world_missing_audio;
     api := api world_missing_audio |}.

(** [r["annotations"].get(field, "unknown")]. *)
Definition key_of (field : string) (r : result) : string :=
  default "unknown" (res_annotations r !! field).

(** The results whose annotation [field] is [k], in their order. *)
Definition members (field k : string) (rs : list result) : list result :=
  filter (λ r, key_of field r = k) rs.

Definition entry_of (r : result) (entry : transcript_entry) : Prop :=
  te_id entry = res_id r
  ∧ te_transcription entry = res_transcription r
  ∧ te_wer entry = wer (res_metrics r).

Definition key_le {V} (a b : string * V) : Prop := String.leb a.1 b.1 = true.

(** * Properties *)

(** ** Characters *)

Ltac all_chars c := destruct c as [[] [] [] [] [] [] [] []]; vm_compute; try reflexivity.

Lemma lower_char_idem c : lower_char (lower_char c) = lower_char c.
Proof. all_chars c. Qed.

(** ** [split] and [join] *)

Lemma split_tokens s : Forall token (split s).
Proof.
  induction s as [|c s IH]; simpl; [constructor|].
  destruct (is_space c) eqn:Hc; [exact IH|].
  destruct s as [|d s'].
  - repeat constructor; [discriminate|exact Hc].
  - destruct (is_space d) eqn:Hd.
    + constructor; [|exact IH].
      split; [discriminate|]. repeat constructor. exact Hc.
    + destruct (split (d :: s')) as [|w ws] eqn:Hs.
      * repeat constructor; [discriminate|exact Hc].
      * inversion IH as [|? ? [Hw1 Hw2] Hws]; subst.
        constructor; [|exact Hws].
        split; [discriminate|]. constructor; assumption.
Qed.

Lemma split_Forall (P : ascii → Prop) s :
  Forall P s → Forall (Forall P) (split s).
Proof.
  induction s as [|c s IH]; simpl; intros H; [constructor|].
  inversion H as [|? ? Hc Hs]; subst.
  destruct (is_space c); [auto|].
  destruct s as [|d s'].
  - repeat constructor. exact Hc.
  - specialize (IH Hs).
    destruct (is_space d).
    + constructor; [|exact IH]. repeat constructor. exact Hc.
    + destruct (split (d :: s')) as [|w ws].
      * repeat constructor. exact Hc.
      * inversion IH; subst. constructor; [|assumption]. constructor; assumption.
Qed.

(** A token followed by nothing or by whitespace is split off whole. *)
Lemma split_token_app w rest :
  token w →
  match rest with [] => True | d :: _ => is_space d = true end →
  split (w ++ rest) = w :: split rest.
Proof.
  intros [Hne Hw]. induction w as [|c w IH]; [congruence|]. intros Hrest.
  inversion Hw as [|? ? Hc Hw']; subst.
  destruct w as [|c' w'].
  - simpl. rewrite Hc. destruct rest as [|d rest']; [reflexivity|].
    rewrite Hrest. reflexivity.
  - assert (Hc' : is_space c' = false) by (inversion Hw'; assumption).
    change ((c :: c' :: w') ++ rest) with (c :: (c' :: w') ++ rest).
    cbn [split]. rewrite Hc.
    change ((c' :: w') ++ rest) with (c' :: w' ++ rest) at 1.
    cbv iota beta. rewrite Hc'.
    change (c' :: w' ++ rest) with ((c' :: w') ++ rest).
    rewrite IH; [reflexivity|discriminate|assumption|assumption].
Qed.

Lemma split_join ws :
  Forall token ws → split (join [" "%char] ws) = ws.
Proof.
  induction ws as [|w ws IH]; intros H; [reflexivity|].
  inversion H as [|? ? Hw Hws]; subst.
  destruct ws as [|w' ws'].
  - simpl. rewrite <- (app_nil_r w) at 1.
    rewrite split_token_app; [reflexivity|assumption|exact I].
  - change (join [" "%char] (w :: w' :: ws'))
      with (w ++ " "%char :: join [" "%char] (w' :: ws')).
    rewrite split_token_app; [|assumption|reflexivity].
    f_equal. change (split (" "%char :: ?x)) with (split x).
    cbn [split]. change (is_space " ") with true. cbv iota.
    apply IH. assumption.
Qed.

Lemma join_Forall (P : ascii → Prop) sep ws :
  Forall P sep → Forall (Forall P) ws → Forall P (join sep ws).
Proof.
  intros Hsep. induction ws as [|w ws IH]; intros H; [constructor|].
  inversion H as [|? ? Hw Hws]; subst.
  destruct ws as [|w' ws']; [exact Hw|].
  change (join sep (w :: w' :: ws')) with (w ++ sep ++ join sep (w' :: ws')).
  rewrite !Forall_app. auto.
Qed.

Lemma join_nil_inv sep ws : Forall token ws → join sep ws = [] → ws = [].
Proof.
  intros H. destruct ws as [|w ws]; [reflexivity|].
  inversion H as [|? ? [Hne _] _]; subst.
  destruct w; [congruence|]. destruct ws; discriminate.
Qed.

(** ** [normalize_text] *)

Lemma re_sub_punct_lower_normal s :
  Forall normal_char (re_sub_punct (map lower_char s)).
Proof.
  unfold re_sub_punct. induction s as [|c s IH]; [constructor|].
  cbn [map]. rewrite filter_cons. case_decide; [|exact IH].
  constructor; [|exact IH]. split; [apply lower_char_idem|assumption].
Qed.

Lemma map_lower_normal s : Forall normal_char s → map lower_char s = s.
Proof.
  induction 1 as [|c s [Hc _] _ IH]; [reflexivity|].
  cbn [map]. rewrite Hc, IH. reflexivity.
Qed.

Lemma re_sub_punct_normal s : Forall normal_char s → re_sub_punct s = s.
Proof.
  unfold re_sub_punct. induction 1 as [|c s [_ Hc] _ IH]; [reflexivity|].
  rewrite filter_cons. case_decide; [|contradiction]. rewrite IH. reflexivity.
Qed.

Lemma normalize_chars_join s : normalize_chars s = join [" "%char] (normal_tokens s).
Proof. reflexivity. Qed.

Lemma normal_tokens_token s : Forall token (normal_tokens s).
Proof. apply split_tokens. Qed.

Lemma normal_tokens_normal s : Forall (Forall normal_char) (normal_tokens s).
Proof. apply split_Forall, re_sub_punct_lower_normal. Qed.

Lemma normalize_chars_normal s : Forall normal_char (normalize_chars s).
Proof.
  rewrite normalize_chars_join. apply join_Forall.
  - repeat constructor.
  - apply normal_tokens_normal.
Qed.

Lemma split_normalize_chars s : split (normalize_chars s) = normal_tokens s.
Proof. rewrite normalize_chars_join. apply split_join, normal_tokens_token. Qed.

Lemma normalize_chars_idem s : normalize_chars (normalize_chars s) = normalize_chars s.
Proof.
  unfold normalize_chars at 1.
  rewrite (map_lower_normal _ (normalize_chars_normal s)).
  rewrite (re_sub_punct_normal _ (normalize_chars_normal s)).
  rewrite split_normalize_chars. reflexivity.
Qed.

Lemma str_split_normalize_text s :
  str_split (normalize_text s)
  = map string_of_list_ascii (normal_tokens (list_ascii_of_string s)).
Proof.
  unfold str_split, normalize_text.
  rewrite list_ascii_of_string_of_list_ascii, split_normalize_chars. reflexivity.
Qed.

Lemma normalize_text_empty_iff s :
  normalize_text s = "" ↔ normal_tokens (list_ascii_of_string s) = [].
Proof.
  unfold normalize_text. rewrite normalize_chars_join. split.
  - intros H. apply (join_nil_inv [" "%char]); [apply normal_tokens_token|].
    destruct (join _ _); [reflexivity|discriminate].
  - intros ->. reflexivity.
Qed.

(** The shape of every result of [normalize_text]: tokens of lowercase word
    characters and apostrophes, joined by single spaces. *)
Lemma normalize_text_shape s :
  ∃ ws, list_ascii_of_string (normalize_text s) = join [" "%char] ws
        ∧ Forall token ws
        ∧ Forall (Forall normal_char) ws.
Proof.
  exists (normal_tokens (list_ascii_of_string s)). unfold normalize_text.
  rewrite list_ascii_of_string_of_list_ascii.
  auto using normal_tokens_token, normal_tokens_normal.
Qed.

(** C6. [normalize_text] is idempotent: normalising an already normalised
    string returns it unchanged. *)
Theorem normalize_text_idempotent (s : string) :
  normalize_text (normalize_text s) = normalize_text s.
Proof.
  unfold normalize_text.
  rewrite list_ascii_of_string_of_list_ascii, normalize_chars_idem.
  reflexivity.
Qed.

(** ** Edit distance and error rates *)

Section LevenshteinFacts.
Context {A : Type} `{EqDecision A}.
Implicit Types (s t : list A) (x y : A).

Lemma lev_nil_r s : jiwer.lev s [] = length s.
Proof. destruct s; reflexivity. Qed.

Lemma lev_cons x s y t :
  jiwer.lev (x :: s) (y :: t)
  = Nat.min (Nat.min (S (jiwer.lev s (y :: t))) (S (jiwer.lev (x :: s) t)))
            (jiwer.subst_cost x y + jiwer.lev s t).
Proof. reflexivity. Qed.

Lemma subst_cost_same x : jiwer.subst_cost x x = 0.
Proof. unfold jiwer.subst_cost. case_decide; congruence. Qed.

Lemma subst_cost_le x y : (jiwer.subst_cost x y ≤ 1)%nat.
Proof. unfold jiwer.subst_cost. case_decide; lia. Qed.

Lemma lev_same s : jiwer.lev s s = 0.
Proof.
  induction s as [|x s IH]; [reflexivity|].
  rewrite lev_cons, IH, subst_cost_same. lia.
Qed.

Lemma lev_zero_inv s t : jiwer.lev s t = 0 → s = t.
Proof.
  revert t. induction s as [|x s IH]; intros [|y t] Hlev.
  - reflexivity.
  - discriminate.
  - rewrite lev_nil_r in Hlev. discriminate.
  - rewrite lev_cons in Hlev.
    assert (Hcost : jiwer.subst_cost x y + jiwer.lev s t = 0) by lia.
    unfold jiwer.subst_cost in Hcost. case_decide; [|lia].
    subst. f_equal. apply IH. lia.
Qed.

Lemma lev_common_prefix a s t :
  (jiwer.lev (a ++ s) (a ++ t) ≤ jiwer.lev s t)%nat.
Proof.
  induction a as [|c a IH]; [reflexivity|].
  cbn [app]. rewrite lev_cons, subst_cost_same. lia.
Qed.

(** One substituted element costs exactly one edit. *)
Lemma lev_one_substitution a x y b :
  x ≠ y → jiwer.lev (a ++ x :: b) (a ++ y :: b) = 1.
Proof.
  intros Hxy.
  assert (Hle : (jiwer.lev (a ++ x :: b) (a ++ y :: b) ≤ 1)%nat).
  { etrans; [apply lev_common_prefix|].
    rewrite lev_cons, lev_same. pose proof (subst_cost_le x y). lia. }
  destruct (jiwer.lev (a ++ x :: b) (a ++ y :: b)) as [|n] eqn:Hlev; [|lia].
  apply lev_zero_inv, app_inv_head in Hlev. congruence.
Qed.

Lemma rows_spec s t : jiwer.rows s t = map (jiwer.lev s) (jiwer.suffixes t).
Proof.
  induction s as [|x s IH]; cbn [jiwer.rows].
  - induction t as [|y t IHt]; [reflexivity|]. cbn. f_equal. exact IHt.
  - rewrite IH. clear IH. induction t as [|y t IHt].
    + cbn. rewrite lev_nil_r. reflexivity.
    + cbn [jiwer.suffixes map].
      destruct t as [|z t'].
      * cbn [jiwer.suffixes map jiwer.next_row].
        rewrite lev_cons, !lev_nil_r. reflexivity.
      * cbn [jiwer.suffixes map] in *. cbn [jiwer.next_row].
        cbn [jiwer.next_row] in IHt. rewrite IHt, (lev_cons x s y).
        reflexivity.
Qed.

Lemma edit_distance_lev s t : jiwer.edit_distance s t = jiwer.lev s t.
Proof. unfold jiwer.edit_distance. rewrite rows_spec. destruct t; reflexivity. Qed.

Lemma error_rate_returns x s hyp :
  jiwer.error_rate (x :: s) hyp
  = Returned (Z.of_nat (jiwer.lev (x :: s) hyp) # Pos.of_nat (S (length s)))%Q.
Proof. unfold jiwer.error_rate. rewrite edit_distance_lev. reflexivity. Qed.
End LevenshteinFacts.

Lemma list_ascii_of_string_nil_inv s : list_ascii_of_string s = [] → s = "".
Proof. destruct s; [reflexivity|discriminate]. Qed.

Lemma str_split_nonempty_inv s : str_split s ≠ [] → s ≠ "".
Proof. intros H ->. apply H. reflexivity. Qed.

(** What [calculate_metrics] returns on a reference whose normal form has at
    least one token. *)
Lemma calculate_metrics_returns reference hypothesis :
  str_split (normalize_text reference) ≠ [] →
  calculate_metrics reference hypothesis
  = Returned
      {| wer := (Z.of_nat (jiwer.lev (str_split (normalize_text reference))
                                     (str_split (normalize_text hypothesis)))
                 # Pos.of_nat (length (str_split (normalize_text reference))))%Q;
         cer := (Z.of_nat (jiwer.lev (list_ascii_of_string (normalize_text reference))
                                     (list_ascii_of_string (normalize_text hypothesis)))
                 # Pos.of_nat (length (list_ascii_of_string (normalize_text reference))))%Q;
         reference_words := length (str_split (normalize_text reference));
         hypothesis_words := length (str_split (normalize_text hypothesis)) |}.
Proof.
  intros Hne. unfold calculate_metrics, jiwer.wer, jiwer.cer.
  pose proof (str_split_nonempty_inv _ Hne) as Hs.
  destruct (str_split (normalize_text reference)) as [|x ws] eqn:Hsplit; [congruence|].
  destruct (list_ascii_of_string (normalize_text reference)) as [|c cs] eqn:Hchars.
  { apply list_ascii_of_string_nil_inv in Hchars. congruence. }
  rewrite !error_rate_returns. reflexivity.
Qed.

Lemma calculate_metrics_raises reference hypothesis :
  normalize_text reference = "" →
  calculate_metrics reference hypothesis
  = Raised (ValueError "one or more references are empty strings").
Proof. intros H. unfold calculate_metrics. rewrite H. reflexivity. Qed.

Lemma normalize_text_nonempty_split reference :
  normalize_text reference ≠ "" → str_split (normalize_text reference) ≠ [].
Proof.
  intros Hne Hsplit. apply Hne, normalize_text_empty_iff.
  rewrite str_split_normalize_text in Hsplit.
  destruct (normal_tokens _); [reflexivity|discriminate].
Qed.

(** C1. On the input ['Hello,' she said.] the single quotation marks, which
    are punctuation and stand in no contraction, survive [normalize_text],
    as does the underscore of [snake_case]: the class [[^\w\s']] deletes
    neither, although the comment above it announces that punctuation is
    removed except apostrophes in contractions. *)
Theorem normalize_text_keeps_quotation_marks :
  normalize_text "'Hello,' she said." = "'hello' she said"
  ∧ normalize_text "snake_case" = "snake_case".
Proof. split; vm_compute; reflexivity. Qed.

(** C2, as stated, fails: the raw tokens [brown] and [BROWN] differ, so the
    hypothesis differs from the reference by one substituted token, yet the
    word error rate is 0 and not 1/4, because both are normalised before
    they are compared. *)
Lemma wer_one_raw_substitution_counterexample :
  ¬ (∀ reference hypothesis a x y b,
        str_split reference = a ++ x :: b →
        str_split hypothesis = a ++ y :: b →
        x ≠ y →
        ∃ m, calculate_metrics reference hypothesis = Returned m
             ∧ (wer m == 1 # Pos.of_nat (length (a ++ x :: b)))%Q).
Proof.
  intros Hclaim.
  destruct (Hclaim "the quick brown fox" "the quick BROWN fox"
                   ["the"; "quick"] "brown" "BROWN" ["fox"])
    as (m & Hm & Hwer); [reflexivity|reflexivity|discriminate|].
  vm_compute in Hm. injection Hm as <-. vm_compute in Hwer. discriminate.
Qed.

(** C2, amended. When the normalised reference has N tokens and the
    normalised hypothesis differs from it by exactly one substituted token,
    [calculate_metrics] returns the word error rate 1/N. *)
Theorem wer_one_substitution (reference hypothesis : string)
    (a : list string) (x y : string) (b : list string) :
  str_split (normalize_text reference) = a ++ x :: b →
  str_split (normalize_text hypothesis) = a ++ y :: b →
  x ≠ y →
  ∃ m, calculate_metrics reference hypothesis = Returned m
       ∧ wer m = (1 # Pos.of_nat (length (a ++ x :: b)))%Q.
Proof.
  intros Href Hhyp Hxy. eexists. split.
  - apply calculate_metrics_returns. rewrite Href. destruct a; discriminate.
  - cbn [wer]. rewrite Href, Hhyp, lev_one_substitution by assumption.
    reflexivity.
Qed.

(** The scenario of the specification: one substitution in four tokens. *)
Lemma wer_one_substitution_witness :
  ∃ m, calculate_metrics "the quick brown fox" "the quick red fox" = Returned m
       ∧ wer m = (1 # 4)%Q.
Proof.
  apply (wer_one_substitution "the quick brown fox" "the quick red fox"
           ["the"; "quick"] "brown" "red" ["fox"]).
  - vm_compute. reflexivity.
  - vm_compute. reflexivity.
  - discriminate.
Defined.

(** C7, as stated, fails: the reference [...] is not empty, but nothing of
    it is left after normalisation, and the metric library rejects an empty
    reference instead of returning a rate. *)
Lemma wer_self_counterexample :
  ¬ (∀ reference, reference ≠ "" →
        ∃ m, calculate_metrics reference reference = Returned m
             ∧ (wer m == 0)%Q).
Proof.
  intros Hclaim. destruct (Hclaim "...") as (m & Hm & _); [discriminate|].
  vm_compute in Hm. discriminate.
Qed.

(** C7, amended. For every reference whose normal form is not empty,
    [calculate_metrics reference reference] returns WER 0 and CER 0. *)
Theorem wer_self_zero (reference : string) :
  normalize_text reference ≠ "" →
  ∃ m, calculate_metrics reference reference = Returned m
       ∧ (wer m == 0)%Q ∧ (cer m == 0)%Q.
Proof.
  intros Hne. eexists. split.
  - apply calculate_metrics_returns, normalize_text_nonempty_split, Hne.
  - cbn [wer cer]. rewrite !lev_same. split; reflexivity.
Qed.

Lemma wer_self_zero_witness :
  ∃ m, calculate_metrics "the quick brown fox" "the quick brown fox" = Returned m
       ∧ (wer m == 0)%Q ∧ (cer m == 0)%Q.
Proof.
  apply (wer_self_zero "the quick brown fox"). vm_compute. discriminate.
Defined.

(** ** Laws of the computations *)

Lemma bind_emit {B} ev (k : M B) : bind (emit ev) (λ _, k) = (ev :: k.1, k.2).
Proof. unfold bind, emit. destruct k. reflexivity. Qed.

Lemma bind_ret {A B} (a : A) (f : A → M B) : bind (ret a) f = f a.
Proof. unfold bind, ret. destruct (f a). reflexivity. Qed.

(** ** [save_results] *)

Lemma sum_lengths_cons g groups :
  sum_lengths (g :: groups) = (length g.2 + sum_lengths groups)%nat.
Proof. reflexivity. Qed.

Lemma sum_lengths_group_append key w groups :
  sum_lengths (group_append key w groups) = S (sum_lengths groups).
Proof.
  induction groups as [|[k ws] groups IH]; [reflexivity|].
  cbn [group_append]. case_decide; rewrite !sum_lengths_cons; cbn [snd].
  - rewrite length_app. cbn. lia.
  - rewrite IH. lia.
Qed.

Lemma sum_lengths_foldl (key : result → string) rs groups :
  sum_lengths (foldl (λ g r, group_append (key r) (wer (res_metrics r)) g) groups rs)
  = (sum_lengths groups + length rs)%nat.
Proof.
  revert groups. induction rs as [|r rs IH]; intros groups; cbn [foldl length].
  - lia.
  - rewrite IH, sum_lengths_group_append. lia.
Qed.

Lemma sum_counts_group_summary groups :
  sum_counts (group_summary groups) = sum_lengths groups.
Proof.
  induction groups as [|g groups IH]; [reflexivity|].
  rewrite sum_lengths_cons, <- IH. reflexivity.
Qed.

Lemma sum_counts_group_by field rs :
  sum_counts (group_summary (group_by field rs)) = length rs.
Proof.
  rewrite sum_counts_group_summary. unfold group_by.
  rewrite (sum_lengths_foldl (λ r, default "unknown" (res_annotations r !! field))).
  reflexivity.
Qed.

Lemma save_results_nil stamp :
  save_results stamp []
  = ([Mkdir; WriteResults stamp []; PrintResultsSaved stamp;
      WriteTranscripts stamp []; PrintTranscriptsSaved stamp], Returned tt).
Proof. reflexivity. Qed.

Lemma save_results_cons stamp r rs :
  (save_results stamp (r :: rs)).2 = Returned tt
  ∧ ∃ entries,
      (save_results stamp (r :: rs)).1
      = [Mkdir; WriteResults stamp (r :: rs); PrintResultsSaved stamp;
         WriteTranscripts stamp entries; PrintTranscriptsSaved stamp]
        ++ summary_events stamp (make_summary stamp (r :: rs)).
Proof. split; [reflexivity|]. eexists. reflexivity. Qed.

Lemma write_summary_not_group stamp s (l : list (string * group_stats)) :
  WriteSummary stamp s ∉ map (λ g, PrintGroup g.1 g.2) l.
Proof.
  intros H. apply list_elem_of_In, in_map_iff in H.
  destruct H as (g & Hg & _). discriminate.
Qed.

Lemma write_summary_inv stamp rs s :
  WriteSummary stamp s ∈ (save_results stamp rs).1 →
  rs ≠ [] ∧ s = make_summary stamp rs.
Proof.
  destruct rs as [|r rs].
  - rewrite save_results_nil. cbn [fst].
    rewrite !elem_of_cons, elem_of_nil. intros H.
    repeat (destruct H as [H|H]; [discriminate|]). contradiction.
  - destruct (save_results_cons stamp r rs) as [_ [entries ->]].
    unfold summary_events.
    rewrite !elem_of_app, !elem_of_cons, elem_of_nil. intros H.
    split; [discriminate|].
    destruct H as [H|[H|H]].
    + repeat (destruct H as [H|H]; [discriminate|]). contradiction.
    + destruct H as [H|H]; [congruence|].
      repeat (destruct H as [H|H]; [discriminate|]). contradiction.
    + destruct H as [H|[H|H]]; [|discriminate|];
        exfalso; eapply write_summary_not_group; exact H.
Qed.

Lemma group_append_keys key w groups k :
  k ∈ (group_append key w groups).*1 ↔ k = key ∨ k ∈ groups.*1.
Proof.
  induction groups as [|[k' ws] groups IH]; cbn [group_append].
  - cbn. rewrite list_elem_of_singleton, elem_of_nil. tauto.
  - case_decide; cbn [fmap list_fmap fst]; rewrite !elem_of_cons.
    + subst. tauto.
    + cbn [fmap list_fmap] in IH. rewrite IH. tauto.
Qed.

Lemma foldl_group_append_keys (key : result → string) rs :
  ∀ groups k,
    k ∈ groups.*1 ∨ (∃ r, r ∈ rs ∧ key r = k) →
    k ∈ (foldl (λ g r, group_append (key r) (wer (res_metrics r)) g) groups rs).*1.
Proof.
  induction rs as [|r0 rs IH]; intros groups k Hk; cbn [foldl].
  - destruct Hk as [Hk|(r & Hr & _)]; [exact Hk|].
    apply elem_of_nil in Hr. contradiction.
  - apply IH. destruct Hk as [Hk|(r & Hr & Hkey)].
    + left. apply group_append_keys. auto.
    + apply elem_of_cons in Hr as [->|Hr].
      * left. apply group_append_keys. auto.
      * right. eauto.
Qed.

Lemma group_summary_keys groups : (group_summary groups).*1 = groups.*1.
Proof.
  induction groups as [|g groups IH]; [reflexivity|].
  cbn. f_equal. exact IH.
Qed.

Lemma group_by_key_present field rs r :
  r ∈ rs →
  default "unknown" (res_annotations r !! field)
    ∈ (group_summary (group_by field rs)).*1.
Proof.
  intros Hr. rewrite group_summary_keys. unfold group_by.
  apply (foldl_group_append_keys
           (λ r, default "unknown" (res_annotations r !! field))).
  right. eauto.
Qed.

(** C8. In every summary that [save_results] writes, the [count] fields of
    the pace groups add up to the number of results, and so do those of the
    background-noise groups; each result is counted in the group of its
    annotation, or in the group [unknown] when the annotation is missing. *)
Theorem summary_counts_sum (stamp : string) (rs : list result) (s : summary) :
  WriteSummary stamp s ∈ (save_results stamp rs).1 →
  sum_counts (by_pace s) = length rs
  ∧ sum_counts (by_background s) = length rs
  ∧ total_recordings s = length rs
  ∧ ∀ r, r ∈ rs →
         default "unknown" (res_annotations r !! "pace") ∈ (by_pace s).*1
         ∧ default "unknown" (res_annotations r !! "background_noise")
             ∈ (by_background s).*1.
Proof.
  intros H. apply write_summary_inv in H as [_ ->].
  cbn [make_summary by_pace by_background total_recordings].
  rewrite !sum_counts_group_by. repeat split; auto using group_by_key_present.
Qed.

(** C5, as stated, fails: when every record was skipped the result list is
    empty, and [save_results] then neither writes a summary file nor prints
    the summary; the block is guarded by [if results:]. *)
Lemma save_results_empty_counterexample :
  ¬ (∀ stamp rs,
        ∃ s, WriteSummary stamp s ∈ (save_results stamp rs).1
             ∧ PrintSummaryHeader ∈ (save_results stamp rs).1).
Proof.
  intros Hclaim. destruct (Hclaim "20250101_120000" []) as (s & Hs & _).
  apply write_summary_inv in Hs as [Hne _]. congruence.
Qed.

(** C5, amended. Whenever at least one record was scored, however many
    were skipped, [save_results] returns normally, writes the detailed
    results, writes the summary file and prints the summary. *)
Theorem save_results_summary (stamp : string) (rs : list result) :
  rs ≠ [] →
  (save_results stamp rs).2 = Returned tt
  ∧ WriteResults stamp rs ∈ (save_results stamp rs).1
  ∧ WriteSummary stamp (make_summary stamp rs) ∈ (save_results stamp rs).1
  ∧ PrintSummaryHeader ∈ (save_results stamp rs).1
  ∧ PrintTotal (length rs) ∈ (save_results stamp rs).1.
Proof.
  intros Hne. destruct rs as [|r rs]; [congruence|].
  destruct (save_results_cons stamp r rs) as [-> [entries ->]].
  unfold summary_events.
  split; [reflexivity|]. rewrite !elem_of_app, !elem_of_cons.
  repeat split; auto 20.
Qed.

(** Four results, one of them without annotations. *)
Lemma summary_counts_sum_witness :
  sum_counts (by_pace (make_summary "20250101_120000" demo_results)) = 4%nat
  ∧ sum_counts (by_background (make_summary "20250101_120000" demo_results)) = 4%nat
  ∧ total_recordings (make_summary "20250101_120000" demo_results) = 4%nat
  ∧ ∀ r, r ∈ demo_results →
         default "unknown" (res_annotations r !! "pace")
           ∈ (by_pace (make_summary "20250101_120000" demo_results)).*1
         ∧ default "unknown" (res_annotations r !! "background_noise")
             ∈ (by_background (make_summary "20250101_120000" demo_results)).*1.
Proof.
  apply (summary_counts_sum "20250101_120000" demo_results).
  vm_compute. repeat constructor.
Defined.

Lemma save_results_summary_witness :
  (save_results "20250101_120000" demo_results).2 = Returned tt
  ∧ WriteResults "20250101_120000" demo_results
      ∈ (save_results "20250101_120000" demo_results).1
  ∧ WriteSummary "20250101_120000" (make_summary "20250101_120000" demo_results)
      ∈ (save_results "20250101_120000" demo_results).1
  ∧ PrintSummaryHeader ∈ (save_results "20250101_120000" demo_results).1
  ∧ PrintTotal 4 ∈ (save_results "20250101_120000" demo_results).1.
Proof. apply (save_results_summary "20250101_120000" demo_results). discriminate. Defined.

Example demo_by_pace :
  map (λ g, (g.1, count g.2)) (by_pace (make_summary "t" demo_results))
  = [("fast", 2%nat); ("slow", 1%nat); ("unknown", 1%nat)].
Proof. vm_compute. reflexivity. Qed.

(** ** [run_evaluation] *)

Lemma bind_assoc {A B C} (m : M A) (f : A → M B) (g : B → M C) :
  bind (bind m f) g = bind m (λ a, bind (f a) g).
Proof.
  destruct m as [out [a|e]]; [|reflexivity].
  cbn [bind]. destruct (f a) as [out' [b|e']]; cbn [bind].
  - destruct (g b). rewrite app_assoc. reflexivity.
  - reflexivity.
Qed.

Lemma for_enumerate_app {A St} (body : nat → A → St → M St) i xs ys st :
  for_enumerate body i (xs ++ ys) st
  = bind (for_enumerate body i xs st) (for_enumerate body (i + length xs) ys).
Proof.
  revert i st. induction xs as [|x xs IH]; intros i st.
  - cbn [app for_enumerate length]. rewrite bind_ret, Nat.add_0_r. reflexivity.
  - cbn [app for_enumerate length]. rewrite bind_assoc.
    destruct (body i x st) as [out [st'|e]]; [|reflexivity].
    cbn [bind]. rewrite IH.
    replace (S i + length xs)%nat with (i + S (length xs))%nat by lia.
    reflexivity.
Qed.

(** *** The ground-truth cache *)

Lemma consistent_empty w : consistent w ∅.
Proof. intros f t H. rewrite lookup_empty in H. discriminate. Qed.

Lemma consistent_insert w cache f content :
  consistent w cache → samples w !! f = Some content →
  consistent w (<[f := str_strip content]> cache).
Proof.
  intros Hc Hf g t. rewrite lookup_insert. case_decide as Hfg.
  - subst. intros [= <-]. eauto.
  - apply Hc.
Qed.

Lemma cached_ground_truth_hit w cache f t :
  cache !! f = Some t → cached_ground_truth w cache f = ret (cache, t).
Proof. unfold cached_ground_truth. intros ->. reflexivity. Qed.

Lemma cached_ground_truth_load w cache f content :
  cache !! f = None → samples w !! f = Some content →
  cached_ground_truth w cache f
  = ret (<[f := str_strip content]> cache, str_strip content).
Proof.
  unfold cached_ground_truth, load_ground_truth. intros -> ->. reflexivity.
Qed.

Lemma cached_ground_truth_missing w cache f :
  cache !! f = None → samples w !! f = None →
  cached_ground_truth w cache f = raise (OSError f).
Proof.
  unfold cached_ground_truth, load_ground_truth. intros -> ->. reflexivity.
Qed.

Lemma cached_ground_truth_available w cache f :
  is_Some (cache !! f) ∨ is_Some (samples w !! f) →
  ∃ cache' reference,
    cached_ground_truth w cache f = ret (cache', reference)
    ∧ (consistent w cache →
       consistent w cache'
       ∧ ∃ content, samples w !! f = Some content ∧ reference = str_strip content).
Proof.
  intros Havail. destruct (cache !! f) as [t|] eqn:Hcache.
  - exists cache, t. split; [apply cached_ground_truth_hit, Hcache|].
    intros Hc. split; [exact Hc|]. apply (Hc f t Hcache).
  - destruct Havail as [[? ?]|[content Hcontent]]; [discriminate|].
    exists (<[f := str_strip content]> cache), (str_strip content).
    split; [apply cached_ground_truth_load; assumption|].
    intros Hc. split; [apply consistent_insert; assumption|]. eauto.
Qed.

(** *** [transcribe_audio] *)

Lemma transcribe_audio_ok w path r result :
  path ∈ audio_files w → api w path = Response r →
  status_code r = 200%Z → json r = Some result →
  transcribe_audio w path
  = ([PrintTranscribing path; PrintOK], Returned (default "" (result !! "text"))).
Proof.
  intros Hpath Hapi Hstatus Hjson. unfold transcribe_audio.
  rewrite decide_True by assumption. rewrite Hapi.
  rewrite decide_True by assumption. rewrite Hjson. reflexivity.
Qed.

Lemma transcribe_audio_failed w path r :
  path ∈ audio_files w → api w path = Response r →
  status_code r ≠ 200%Z →
  transcribe_audio w path
  = ([PrintTranscribing path; PrintErrorStatus (status_code r)],
     Raised (TranscriptionFailed (status_code r) (text r))).
Proof.
  intros Hpath Hapi Hstatus. unfold transcribe_audio.
  rewrite decide_True by assumption. rewrite Hapi.
  rewrite decide_False by assumption. reflexivity.
Qed.

(** *** One iteration of the loop *)

Lemma process_record_missing_audio w total i record st :
  audio_path_of record ∉ audio_files w →
  process_record w total i record st
  = ([PrintProcessing i total (record_id_of record);
      PrintWarningAudioNotFound (audio_path_of record)], Returned st).
Proof.
  intros Hpath. unfold process_record.
  rewrite decide_False by assumption. reflexivity.
Qed.

Lemma process_record_missing_sample w total i record st :
  audio_path_of record ∈ audio_files w →
  ground_truths st !! sample_file_of record = None →
  samples w !! sample_file_of record = None →
  process_record w total i record st
  = ([PrintProcessing i total (record_id_of record)],
     Raised (OSError (sample_file_of record))).
Proof.
  intros Hpath Hcache Hsample. unfold process_record.
  rewrite decide_True by assumption.
  rewrite cached_ground_truth_missing by assumption. reflexivity.
Qed.

Lemma process_record_failed w total i record st r :
  audio_path_of record ∈ audio_files w →
  is_Some (ground_truths st !! sample_file_of record)
  ∨ is_Some (samples w !! sample_file_of record) →
  api w (audio_path_of record) = Response r →
  status_code r ≠ 200%Z →
  ∃ cache',
    process_record w total i record st
    = ([PrintProcessing i total (record_id_of record);
        PrintTranscribing (audio_path_of record);
        PrintErrorStatus (status_code r);
        PrintError (TranscriptionFailed (status_code r) (text r))],
       Returned {| ground_truths := cache'; results := results st |})
    ∧ (consistent w (ground_truths st) → consistent w cache').
Proof.
  intros Hpath Havail Hapi Hstatus.
  destruct (cached_ground_truth_available w _ _ Havail)
    as (cache' & reference & Hcached & Hcons).
  exists cache'. split; [|intros Hc; apply Hcons, Hc].
  unfold process_record. rewrite decide_True by assumption.
  rewrite Hcached, (transcribe_audio_failed _ _ r) by assumption.
  reflexivity.
Qed.

Lemma process_record_scores w total i record st :
  scores w record → consistent w (ground_truths st) →
  ∃ out cache' result,
    process_record w total i record st
    = (out, Returned {| ground_truths := cache'; results := results st ++ [result] |})
    ∧ consistent w cache'.
Proof.
  intros (Hpath & content & r & result & Hsample & Hnorm & Hapi & Hstatus & Hjson) Hc.
  destruct (cached_ground_truth_available w (ground_truths st) (sample_file_of record))
    as (cache' & reference & Hcached & Hcons); [right; eauto|].
  destruct (Hcons Hc) as (Hc' & content' & Hsample' & ->).
  assert (content' = content) as -> by congruence.
  unfold process_record. rewrite decide_True by assumption.
  rewrite Hcached, (transcribe_audio_ok _ _ r result) by assumption.
  cbn [bind ret emit try_except app lift].
  rewrite (calculate_metrics_returns (str_strip content))
    by (apply normalize_text_nonempty_split, Hnorm).
  cbn [bind ret emit try_except app lift]. eauto.
Qed.

Lemma for_enumerate_scores w total records :
  ∀ i st,
    Forall (scores w) records → consistent w (ground_truths st) →
    ∃ out st',
      for_enumerate (process_record w total) i records st = (out, Returned st')
      ∧ consistent w (ground_truths st')
      ∧ length (results st') = (length (results st) + length records)%nat.
Proof.
  induction records as [|record records IH]; intros i st Hall Hc.
  - exists [], st. cbn. auto with lia.
  - inversion Hall as [|? ? Hrecord Hrest]; subst.
    destruct (process_record_scores w total i record st Hrecord Hc)
      as (out & cache' & result & Hstep & Hc').
    destruct (IH (S i) {| ground_truths := cache'; results := results st ++ [result] |}
                 Hrest Hc') as (out' & st' & Hloop & Hc'' & Hlen).
    exists (out ++ out'), st'. cbn [for_enumerate].
    rewrite Hstep. cbn [bind]. rewrite Hloop. split; [reflexivity|].
    split; [assumption|]. rewrite Hlen. cbn [results length].
    rewrite length_app. cbn. lia.
Qed.

Lemma run_evaluation_unfold w records :
  load_metadata w = ret records →
  run_evaluation w
  = bind (PrintLoadingMetadata :: PrintFound (length records)
            :: (for_enumerate (process_record w (length records)) 1 records
                  initial_state).1,
          (for_enumerate (process_record w (length records)) 1 records
             initial_state).2)
         (λ st, ret (results st)).
Proof.
  intros Hmeta. unfold run_evaluation. rewrite bind_emit, Hmeta.
  cbn [bind ret fst snd app].
  destruct (for_enumerate _ _ _ _) as [out [st|e]]; reflexivity.
Qed.

(** C3. When the audio file of exactly one metadata record does not exist
    and every other record is scored, [run_evaluation] returns normally and
    its result list is one shorter than the metadata list. *)
Theorem missing_audio_skipped (w : world) (pre : list recording)
    (record : recording) (post : list recording) :
  load_metadata w = ret (pre ++ record :: post) →
  audio_path_of record ∉ audio_files w →
  Forall (scores w) (pre ++ post) →
  ∃ out rs,
    run_evaluation w = (out, Returned rs)
    ∧ length rs = (length (pre ++ record :: post) - 1)%nat.
Proof.
  intros Hmeta Hmissing Hothers.
  apply Forall_app in Hothers as [Hpre Hpost].
  rewrite (run_evaluation_unfold _ _ Hmeta).
  set (total := length (pre ++ record :: post)).
  rewrite for_enumerate_app.
  destruct (for_enumerate_scores w total pre 1 initial_state Hpre (consistent_empty w))
    as (out1 & st1 & -> & Hc1 & Hlen1).
  cbn [bind for_enumerate].
  rewrite (process_record_missing_audio _ _ _ _ _ Hmissing). cbn [bind app].
  destruct (for_enumerate_scores w total post (S (1 + length pre)) st1 Hpost Hc1)
    as (out3 & st3 & -> & _ & Hlen3).
  cbn [fst snd bind ret]. eexists _, _. split; [reflexivity|].
  rewrite Hlen3, Hlen1. subst total. rewrite length_app. cbn. lia.
Qed.

Lemma missing_audio_skipped_witness :
  ∃ out rs,
    run_evaluation world_missing_audio = (out, Returned rs)
    ∧ length rs = 2%nat.
Proof.
  apply (missing_audio_skipped world_missing_audio
           [demo_recording "rec1" "fox.txt"]
           (demo_recording "rec2" "dog.txt")
           [demo_recording "rec3" "fox.txt"]).
  - reflexivity.
  - vm_compute. discriminate.
  - repeat constructor; try (vm_compute; reflexivity);
      exists "  The quick brown fox. ", demo_ok, {["text" := "The quick red fox."]};
      repeat split; try reflexivity; vm_compute; discriminate.
Defined.

(** C4. On a response whose status is not 2xx, [transcribe_audio] raises
    an error that carries the status code and the body; the loop of
    [run_evaluation] catches it, prints it, leaves the result list as it
    was and goes on with the records that follow. *)
Theorem non_2xx_skipped (w : world) (total i : nat) (record : recording)
    (rest : list recording) (st : loop_state) (r : response) :
  audio_path_of record ∈ audio_files w →
  is_Some (ground_truths st !! sample_file_of record)
  ∨ is_Some (samples w !! sample_file_of record) →
  api w (audio_path_of record) = Response r →
  ¬ (200 ≤ status_code r ≤ 299)%Z →
  (transcribe_audio w (audio_path_of record)).2
  = Raised (TranscriptionFailed (status_code r) (text r))
  ∧ ∃ out st',
      process_record w total i record st = (out, Returned st')
      ∧ PrintError (TranscriptionFailed (status_code r) (text r)) ∈ out
      ∧ results st' = results st
      ∧ for_enumerate (process_record w total) i (record :: rest) st
        = bind (out, Returned st')
               (for_enumerate (process_record w total) (S i) rest).
Proof.
  intros Hpath Havail Hapi Hstatus.
  assert (Hne : status_code r ≠ 200%Z) by lia.
  split.
  - rewrite (transcribe_audio_failed _ _ r) by assumption. reflexivity.
  - destruct (process_record_failed w total i record st r Hpath Havail Hapi Hne)
      as (cache' & Hstep & _).
    eexists _, _. split; [exact Hstep|].
    split; [rewrite !elem_of_cons; auto|].
    split; [reflexivity|].
    cbn [for_enumerate]. rewrite Hstep. reflexivity.
Qed.

Lemma non_2xx_skipped_witness :
  (transcribe_audio world_unavailable "audio/rec2.wav").2
  = Raised (TranscriptionFailed 503 "Service Unavailable")
  ∧ ∃ out st',
      process_record world_unavailable 3 2 (demo_recording "rec2" "dog.txt")
        initial_state = (out, Returned st')
      ∧ PrintError (TranscriptionFailed 503 "Service Unavailable") ∈ out
      ∧ results st' = []
      ∧ for_enumerate (process_record world_unavailable 3) 2
          [demo_recording "rec2" "dog.txt"; demo_recording "rec3" "fox.txt"]
          initial_state
        = bind (out, Returned st')
               (for_enumerate (process_record world_unavailable 3) 3
                  [demo_recording "rec3" "fox.txt"]).
Proof.
  apply (non_2xx_skipped world_unavailable 3 2 (demo_recording "rec2" "dog.txt")
           [demo_recording "rec3" "fox.txt"] initial_state demo_unavailable).
  - vm_compute. reflexivity.
  - right. exists "The lazy dog.". vm_compute. reflexivity.
  - reflexivity.
  - cbn. lia.
Defined.

(** C9. When the environment holds no [FIREWORKS_API_KEY], the program
    raises [ValueError] at start-up: nothing has been printed, no record
    has been processed and no file has been written. *)
Theorem missing_credential_is_fatal (w : world) (stamp : string) :
  load_dotenv w !! "FIREWORKS_API_KEY" = None →
  main w stamp
  = ([], Raised (ValueError "FIREWORKS_API_KEY not found in environment")).
Proof. intros Hkey. unfold main, module_init. rewrite Hkey. reflexivity. Qed.

Lemma missing_credential_is_fatal_witness :
  main world_no_credential "20250101_120000"
  = ([], Raised (ValueError "FIREWORKS_API_KEY not found in environment")).
Proof.
  apply (missing_credential_is_fatal world_no_credential "20250101_120000").
  vm_compute. reflexivity.
Defined.

(** C10. When the audio file of a record exists, but its sample file is
    neither in the cache nor in the samples directory, the error of
    [load_ground_truth] leaves the loop: [run_evaluation] raises it right
    after the progress line of that record, and the records that follow
    are not processed. *)
Theorem missing_sample_escapes (w : world) (pre : list recording)
    (record : recording) (post : list recording) (st : loop_state) :
  let total := length (pre ++ record :: post) in
  let before := for_enumerate (process_record w total) 1 pre initial_state in
  load_metadata w = ret (pre ++ record :: post) →
  before.2 = Returned st →
  audio_path_of record ∈ audio_files w →
  samples w !! sample_file_of record = None →
  ground_truths st !! sample_file_of record = None →
  run_evaluation w
  = ([PrintLoadingMetadata; PrintFound total] ++ before.1
       ++ [PrintProcessing (S (length pre)) total (record_id_of record)],
     Raised (OSError (sample_file_of record))).
Proof.
  intros total before Hmeta Hbefore Hpath Hsample Hcache.
  rewrite (run_evaluation_unfold _ _ Hmeta). fold total.
  rewrite for_enumerate_app. fold before.
  destruct before as [out r]. cbn [fst snd] in *. subst r.
  cbn [bind for_enumerate].
  rewrite (process_record_missing_sample _ _ _ _ _ Hpath Hcache Hsample).
  reflexivity.
Qed.

Lemma missing_sample_escapes_witness :
  run_evaluation world_missing_sample
  = ([PrintLoadingMetadata; PrintFound 3]
       ++ (for_enumerate (process_record world_missing_sample 3) 1
             [demo_recording "rec1" "fox.txt"] initial_state).1
       ++ [PrintProcessing 2 3 "rec2"],
     Raised (OSError "dog.txt")).
Proof.
  eapply (missing_sample_escapes world_missing_sample
            [demo_recording "rec1" "fox.txt"]
            (demo_recording "rec2" "dog.txt")
            [demo_recording "rec3" "fox.txt"]).
  - reflexivity.
  - vm_compute. reflexivity.
  - vm_compute. reflexivity.
  - vm_compute. reflexivity.
  - vm_compute. reflexivity.
Defined.

Example run_missing_sample_output :
  (run_evaluation world_missing_sample).1
  = [PrintLoadingMetadata; PrintFound 3; PrintProcessing 1 3 "rec1";
     PrintTranscribing "audio/rec1.wav"; PrintOK;
     PrintWerCer (1 # 4) (4 # 19); PrintProcessing 2 3 "rec2"].
Proof. vm_compute. reflexivity. Qed.

(** ** Sample runs *)

Example normalize_text_ex1 :
  normalize_text "  Hello,   World!  It's  FINE. " = "hello world it's fine".
Proof. vm_compute. reflexivity. Qed.

Example split_ex1 :
  str_split (String "009" " a  b" +:+ String "010" "c ") = ["a"; "b"; "c"].
Proof. vm_compute. reflexivity. Qed.

Example strip_ex1 : str_strip "  a b  " = "a b".
Proof. vm_compute. reflexivity. Qed.

(** * Further properties *)

(** ** More on characters *)

Lemma is_space_lower_char c : is_space (lower_char c) = is_space c.
Proof. all_chars c. Qed.

Lemma is_word_lower_char c : is_word (lower_char c) = is_word c.
Proof. all_chars c. Qed.

Lemma lower_char_apostrophe c : lower_char c = apostrophe ↔ c = apostrophe.
Proof. split; [|intros ->; reflexivity]. all_chars c; discriminate. Qed.

Lemma is_word_not_space c : is_word c = true → is_space c = false.
Proof. all_chars c; discriminate. Qed.

Lemma kept_cases c :
  kept c = true ↔ is_word c = true ∨ is_space c = true ∨ c = apostrophe.
Proof.
  unfold kept. rewrite !orb_true_iff, bool_decide_eq_true. tauto.
Qed.

Lemma kept_lower_char c : kept (lower_char c) = kept c.
Proof. all_chars c. Qed.

(** ** More on [split] *)

Lemma split_nil_iff s : split s = [] ↔ Forall (λ c, is_space c = true) s.
Proof.
  induction s as [|c s IH]; [split; constructor|].
  cbn [split]. destruct (is_space c) eqn:Hc.
  - rewrite IH. split; [constructor; assumption|inversion 1; assumption].
  - split.
    + destruct s as [|d s']; [discriminate|].
      destruct (is_space d); [discriminate|].
      destruct (split (d :: s')); discriminate.
    + inversion 1; congruence.
Qed.

Lemma split_cons_nonspace_nonempty c s : is_space c = false → split (c :: s) ≠ [].
Proof.
  intros Hc H. apply split_nil_iff in H. inversion H; congruence.
Qed.

Lemma split_cons_cons x d s :
  is_space x = false →
  split (x :: d :: s)
  = if is_space d then [x] :: split (d :: s)
    else match split (d :: s) with
         | w :: ws => (x :: w) :: ws
         | [] => [[x]]
         end.
Proof. intros Hx. simpl. rewrite Hx. reflexivity. Qed.

Lemma split_app_space a c b :
  is_space c = true → split (a ++ c :: b) = split a ++ split b.
Proof.
  intros Hc. induction a as [|x a IH].
  - cbn [app split]. rewrite Hc. reflexivity.
  - destruct (is_space x) eqn:Hx.
    { cbn [app split]. rewrite Hx. exact IH. }
    destruct a as [|d a'].
    + cbn [app] in *. rewrite split_cons_cons, Hc, IH by exact Hx. cbn [split].
      rewrite Hx. reflexivity.
    + change ((x :: d :: a') ++ c :: b) with (x :: d :: (a' ++ c :: b)).
      change ((d :: a') ++ c :: b) with (d :: (a' ++ c :: b)) in IH.
      rewrite !split_cons_cons, IH by exact Hx.
      destruct (is_space d) eqn:Hd; [reflexivity|].
      destruct (split (d :: a')) as [|w ws] eqn:Hsplit; [|reflexivity].
      exfalso. eapply split_cons_nonspace_nonempty; eassumption.
Qed.

Lemma split_app_spaces_l l s :
  Forall (λ c, is_space c = true) l → split (l ++ s) = split s.
Proof.
  induction 1 as [|c l Hc _ IH]; [reflexivity|].
  cbn [app split]. rewrite Hc. exact IH.
Qed.

Lemma split_app_spaces_r s r :
  Forall (λ c, is_space c = true) r → split (s ++ r) = split s.
Proof.
  intros Hr. destruct r as [|c r]; [rewrite app_nil_r; reflexivity|].
  inversion Hr as [|? ? Hc Hr']; subst.
  rewrite split_app_space by assumption.
  apply split_nil_iff in Hr'. rewrite Hr', app_nil_r. reflexivity.
Qed.

(** ** More on [normalize_text] *)

Lemma normal_tokens_app_space a c b :
  is_space c = true →
  normal_tokens (a ++ c :: b) = normal_tokens a ++ normal_tokens b.
Proof.
  intros Hc. unfold normal_tokens, re_sub_punct.
  rewrite map_app. cbn [map]. rewrite filter_app, filter_cons.
  assert (Hk : kept (lower_char c) = true).
  { apply kept_cases. rewrite is_space_lower_char. auto. }
  rewrite decide_True by exact Hk.
  apply split_app_space. rewrite is_space_lower_char. exact Hc.
Qed.


Lemma spaces_survive l :
  Forall (λ c, is_space c = true) l →
  Forall (λ c, is_space c = true) (re_sub_punct (map lower_char l)).
Proof.
  unfold re_sub_punct. induction 1 as [|c l Hc _ IH]; [constructor|].
  cbn [map]. rewrite filter_cons. case_decide; [|exact IH].
  constructor; [|exact IH]. rewrite is_space_lower_char. exact Hc.
Qed.

Lemma normal_tokens_padding l s r :
  Forall (λ c, is_space c = true) l → Forall (λ c, is_space c = true) r →
  normal_tokens (l ++ s ++ r) = normal_tokens s.
Proof.
  intros Hl Hr. unfold normal_tokens, re_sub_punct.
  rewrite !map_app, !filter_app.
  rewrite split_app_spaces_l by (apply spaces_survive, Hl).
  apply split_app_spaces_r, spaces_survive, Hr.
Qed.

Lemma lstrip_decompose s :
  ∃ l, s = l ++ lstrip s ∧ Forall (λ c, is_space c = true) l.
Proof.
  induction s as [|c s (l & Hs & Hl)]; [exists []; split; [reflexivity|constructor]|].
  cbn [lstrip]. destruct (is_space c) eqn:Hc.
  - exists (c :: l). split; [cbn; congruence|constructor; assumption].
  - exists []. split; [reflexivity|constructor].
Qed.

Lemma strip_decompose s :
  ∃ l r, s = l ++ strip s ++ r
         ∧ Forall (λ c, is_space c = true) l
         ∧ Forall (λ c, is_space c = true) r.
Proof.
  destruct (lstrip_decompose s) as (l & Hs & Hl).
  destruct (lstrip_decompose (rev (lstrip s))) as (r & Hr & Hr').
  exists l, (rev r). unfold strip, rstrip. split; [|split].
  - rewrite Hs at 1. f_equal.
    rewrite <- (rev_involutive (lstrip s)), Hr at 1. rewrite rev_app_distr.
    reflexivity.
  - exact Hl.
  - apply Forall_rev. exact Hr'.
Qed.

Lemma list_ascii_of_string_app a b :
  list_ascii_of_string (a +:+ b) = list_ascii_of_string a ++ list_ascii_of_string b.
Proof.
  induction a as [|c a IH]; [reflexivity|].
  change (String c a +:+ b) with (String c (a +:+ b)).
  cbn [list_ascii_of_string app]. f_equal. exact IH.
Qed.

Lemma normalize_text_tokens_eq s t :
  normal_tokens (list_ascii_of_string s) = normal_tokens (list_ascii_of_string t) →
  normalize_text s = normalize_text t.
Proof. unfold normalize_text. rewrite !normalize_chars_join. intros ->. reflexivity. Qed.

(** X1. Every result of [normalize_text] is a sequence of non-empty tokens
    joined by single spaces, with no space at either end, and every
    character of a token is a lowercase word character ([\w]) or an
    apostrophe. *)
Theorem normalize_text_alphabet (s : string) :
  ∃ ws,
    list_ascii_of_string (normalize_text s) = join [" "%char] ws
    ∧ Forall (λ w, w ≠ []
                   ∧ Forall (λ c, lower_char c = c
                                  ∧ (is_word c = true ∨ c = apostrophe)) w) ws.
Proof.
  destruct (normalize_text_shape s) as (ws & Hjoin & Htok & Hnorm).
  exists ws. split; [exact Hjoin|].
  rewrite Forall_forall in *. intros w Hw.
  destruct (Htok w Hw) as [Hne Hsp]. split; [exact Hne|].
  specialize (Hnorm w Hw). rewrite Forall_forall in *. intros c Hc.
  destruct (Hnorm c Hc) as [Hlow Hkept]. split; [exact Hlow|].
  apply kept_cases in Hkept as [?|[Hspace|?]]; auto.
  rewrite (Hsp c Hc) in Hspace. discriminate.
Qed.

(** X2. [normalize_text] returns the empty string exactly for the texts that
    hold no word character and no apostrophe. *)
Theorem normalize_text_empty_iff_no_word (s : string) :
  normalize_text s = ""
  ↔ Forall (λ c, is_word c = false ∧ c ≠ apostrophe) (list_ascii_of_string s).
Proof.
  rewrite normalize_text_empty_iff. unfold normal_tokens.
  rewrite split_nil_iff. unfold re_sub_punct.
  induction (list_ascii_of_string s) as [|c l IH].
  - split; constructor.
  - cbn [map]. rewrite filter_cons. case_decide as Hk.
    + rewrite kept_lower_char in Hk. rewrite !Forall_cons, IH.
      rewrite is_space_lower_char. apply kept_cases in Hk.
      split.
      * intros [Hsp Hl]. split; [|exact Hl]. split.
        -- destruct (is_word c) eqn:Hw; [|reflexivity].
           apply is_word_not_space in Hw. congruence.
        -- intros ->. discriminate.
      * intros [[Hw Ha] Hl]. split; [|exact Hl].
        destruct Hk as [?|[?|?]]; congruence.
    + rewrite kept_lower_char in Hk. rewrite Forall_cons, IH.
      assert (Hnk : kept c = false) by (destruct (kept c); congruence).
      split; [|tauto]. intros Hl. split; [|exact Hl].
      split.
      * destruct (is_word c) eqn:Hw; [|reflexivity].
        assert (kept c = true) by (apply kept_cases; auto). congruence.
      * intros ->. discriminate.
Qed.

(** X3. Normalising two texts separated by a whitespace character gives the
    tokens of the first followed by the tokens of the second. *)
Theorem normalize_text_concat (a b : string) (c : ascii) :
  is_space c = true →
  str_split (normalize_text (a +:+ String c b))
  = str_split (normalize_text a) ++ str_split (normalize_text b).
Proof.
  intros Hc. rewrite !str_split_normalize_text, list_ascii_of_string_app.
  cbn [list_ascii_of_string]. rewrite normal_tokens_app_space by exact Hc.
  apply map_app.
Qed.

Lemma normalize_text_concat_witness :
  str_split (normalize_text ("Hello, World!" +:+ String " " "It's FINE."))
  = str_split (normalize_text "Hello, World!") ++ str_split (normalize_text "It's FINE.").
Proof. apply (normalize_text_concat "Hello, World!" "It's FINE." " "). reflexivity. Defined.



(** X5. The [strip()] that [load_ground_truth] applies to a sample text does
    not change its normal form. *)
Theorem normalize_text_strip (s : string) :
  normalize_text (str_strip s) = normalize_text s.
Proof.
  apply normalize_text_tokens_eq. unfold str_strip.
  rewrite list_ascii_of_string_of_list_ascii.
  destruct (strip_decompose (list_ascii_of_string s)) as (l & r & Hs & Hl & Hr).
  rewrite Hs at 2. symmetry. apply normal_tokens_padding; assumption.
Qed.

(** ** More on the metrics *)

Section LevenshteinBounds.
Context {A : Type} `{EqDecision A}.
Implicit Types (s t : list A).

Lemma lev_upper s t : (jiwer.lev s t ≤ length s `max` length t)%nat.
Proof.
  revert t. induction s as [|x s IH]; intros [|y t].
  - reflexivity.
  - cbn. lia.
  - rewrite lev_nil_r. lia.
  - rewrite lev_cons. pose proof (IH t). pose proof (subst_cost_le x y).
    cbn [length]. lia.
Qed.

Lemma lev_lower s t :
  (length s - length t ≤ jiwer.lev s t ∧ length t - length s ≤ jiwer.lev s t)%nat.
Proof.
  revert t. induction s as [|x s IHs]; intros t.
  - change (jiwer.lev [] t) with (length t). cbn [length]. lia.
  - induction t as [|y t IHt].
    + rewrite lev_nil_r. cbn [length]. lia.
    + rewrite lev_cons. pose proof (IHs (y :: t)). pose proof (IHs t).
      cbn [length] in *. lia.
Qed.
End LevenshteinBounds.

Lemma map_list_ascii_of_string_of_list_ascii l :
  map list_ascii_of_string (map string_of_list_ascii l) = l.
Proof.
  induction l as [|w l IH]; [reflexivity|].
  cbn [map]. rewrite list_ascii_of_string_of_list_ascii, IH. reflexivity.
Qed.

Lemma str_split_normalize_text_inj r h :
  str_split (normalize_text r) = str_split (normalize_text h) →
  normalize_text r = normalize_text h.
Proof.
  rewrite !str_split_normalize_text. intros H.
  apply normalize_text_tokens_eq.
  rewrite <- (map_list_ascii_of_string_of_list_ascii (normal_tokens _)), H.
  apply map_list_ascii_of_string_of_list_ascii.
Qed.

Lemma calculate_metrics_cases reference hypothesis :
  (normalize_text reference = ""
   ∧ calculate_metrics reference hypothesis = Raised empty_reference)
  ∨ (normalize_text reference ≠ ""
     ∧ str_split (normalize_text reference) ≠ []
     ∧ ∃ m, calculate_metrics reference hypothesis = Returned m
            ∧ wer m = (Z.of_nat (jiwer.lev (str_split (normalize_text reference))
                                           (str_split (normalize_text hypothesis)))
                       # Pos.of_nat (length (str_split (normalize_text reference))))%Q
            ∧ cer m = (Z.of_nat (jiwer.lev (list_ascii_of_string (normalize_text reference))
                                           (list_ascii_of_string (normalize_text hypothesis)))
                       # Pos.of_nat (length (list_ascii_of_string (normalize_text reference))))%Q
            ∧ reference_words m = length (str_split (normalize_text reference))
            ∧ hypothesis_words m = length (str_split (normalize_text hypothesis))).
Proof.
  destruct (decide (normalize_text reference = "")) as [He|Hne].
  - left. split; [exact He|]. apply calculate_metrics_raises, He.
  - right. pose proof (normalize_text_nonempty_split _ Hne) as Hsplit.
    split; [exact Hne|]. split; [exact Hsplit|].
    eexists. split; [apply calculate_metrics_returns, Hsplit|].
    cbn. auto.
Qed.

Lemma Qeq_zero_num (n : nat) (p : positive) : (Z.of_nat n # p == 0)%Q ↔ n = 0%nat.
Proof. unfold Qeq. cbn. lia. Qed.

Lemma Qeq_one_same (n : nat) :
  (0 < n)%nat → (Z.of_nat n # Pos.of_nat n == 1)%Q.
Proof. intros Hn. unfold Qeq. cbn. lia. Qed.

(** X6. [calculate_metrics] raises the metric library's [ValueError] exactly
    when the reference holds no word character and no apostrophe, whatever
    the hypothesis. *)
Theorem calculate_metrics_raises_iff (reference hypothesis : string) :
  calculate_metrics reference hypothesis
  = Raised (ValueError "one or more references are empty strings")
  ↔ Forall (λ c, is_word c = false ∧ c ≠ apostrophe) (list_ascii_of_string reference).
Proof.
  rewrite <- normalize_text_empty_iff_no_word.
  destruct (calculate_metrics_cases reference hypothesis)
    as [[He Hr]|(Hne & _ & m & Hm & _)].
  - split; auto.
  - rewrite Hm. split; [discriminate|contradiction].
Qed.

(** X7. [calculate_metrics] depends on its two texts through their normal
    forms only: normalising them beforehand changes nothing. *)
Theorem calculate_metrics_prenormalized (reference hypothesis : string) :
  calculate_metrics (normalize_text reference) (normalize_text hypothesis)
  = calculate_metrics reference hypothesis.
Proof. unfold calculate_metrics. rewrite !normalize_text_idempotent. reflexivity. Qed.

(** X8. When [calculate_metrics] returns, the word error rate is 0 exactly
    when reference and hypothesis have the same normal form. *)
Theorem wer_zero_iff (reference hypothesis : string) (m : metrics) :
  calculate_metrics reference hypothesis = Returned m →
  (wer m == 0)%Q ↔ normalize_text reference = normalize_text hypothesis.
Proof.
  intros Hm.
  destruct (calculate_metrics_cases reference hypothesis)
    as [[_ Hr]|(_ & _ & m' & Hm' & Hwer & _)]; [congruence|].
  assert (m' = m) as -> by congruence.
  rewrite Hwer, Qeq_zero_num. split.
  - intros Hlev. apply str_split_normalize_text_inj, lev_zero_inv, Hlev.
  - intros ->. apply lev_same.
Qed.

Lemma wer_zero_iff_witness :
  ∃ m, calculate_metrics "The Dog." "the dog" = Returned m
       ∧ ((wer m == 0)%Q ↔ normalize_text "The Dog." = normalize_text "the dog").
Proof.
  eexists. split.
  - vm_compute. reflexivity.
  - apply (wer_zero_iff "The Dog." "the dog"). vm_compute. reflexivity.
Defined.

(** X9. A hypothesis with an empty normal form (for instance the empty
    transcript that [transcribe_audio] returns when the answer has no
    [text] field) scores WER 1 and CER 1 against any reference with a
    non-empty normal form, with [hypothesis_words] 0. *)
Theorem empty_transcription_scores_one (reference hypothesis : string) :
  normalize_text reference ≠ "" →
  normalize_text hypothesis = "" →
  ∃ m, calculate_metrics reference hypothesis = Returned m
       ∧ (wer m == 1)%Q ∧ (cer m == 1)%Q ∧ hypothesis_words m = 0%nat.
Proof.
  intros Hne Hh.
  destruct (calculate_metrics_cases reference hypothesis)
    as [[He _]|(_ & Hsplit & m & Hm & Hwer & Hcer & _ & Hhw)]; [contradiction|].
  exists m. split; [exact Hm|].
  rewrite Hwer, Hcer, Hhw, Hh. cbn [str_split list_ascii_of_string map split length].
  rewrite !lev_nil_r. repeat split.
  - apply Qeq_one_same. destruct (str_split _); [congruence|cbn; lia].
  - apply Qeq_one_same.
    destruct (list_ascii_of_string (normalize_text reference)) eqn:Hl; [|cbn; lia].
    apply list_ascii_of_string_nil_inv in Hl. contradiction.
Qed.

Lemma empty_transcription_scores_one_witness :
  ∃ m, calculate_metrics "the quick brown fox" "..." = Returned m
       ∧ (wer m == 1)%Q ∧ (cer m == 1)%Q ∧ hypothesis_words m = 0%nat.
Proof.
  apply (empty_transcription_scores_one "the quick brown fox" "...").
  - vm_compute. discriminate.
  - vm_compute. reflexivity.
Defined.

(** X10. When [calculate_metrics] returns, [reference_words] is positive and
    the word error rate is [edits / reference_words] for a number of edits
    between the difference of the two word counts and their maximum; it
    exceeds 1 only when the hypothesis has more words than the reference. *)
Theorem wer_bounds (reference hypothesis : string) (m : metrics) :
  calculate_metrics reference hypothesis = Returned m →
  (0 < reference_words m)%nat
  ∧ ∃ edits : nat,
      wer m = (Z.of_nat edits # Pos.of_nat (reference_words m))%Q
      ∧ (reference_words m - hypothesis_words m ≤ edits)%nat
      ∧ (hypothesis_words m - reference_words m ≤ edits)%nat
      ∧ (edits ≤ reference_words m `max` hypothesis_words m)%nat.
Proof.
  intros Hm.
  destruct (calculate_metrics_cases reference hypothesis)
    as [[_ Hr]|(_ & Hsplit & m' & Hm' & Hwer & _ & Hrw & Hhw)]; [congruence|].
  assert (m' = m) as -> by congruence.
  rewrite Hrw, Hhw. split.
  - destruct (str_split (normalize_text reference)); [congruence|cbn; lia].
  - eexists. split; [exact Hwer|].
    pose proof (lev_lower (str_split (normalize_text reference))
                          (str_split (normalize_text hypothesis))).
    pose proof (lev_upper (str_split (normalize_text reference))
                          (str_split (normalize_text hypothesis))).
    lia.
Qed.

Lemma wer_bounds_witness :
  ∃ m, calculate_metrics "fox" "the quick brown fox" = Returned m
       ∧ wer m = (3 # 1)%Q
       ∧ (0 < reference_words m)%nat
       ∧ ∃ edits : nat,
           wer m = (Z.of_nat edits # Pos.of_nat (reference_words m))%Q
           ∧ (reference_words m - hypothesis_words m ≤ edits)%nat
           ∧ (hypothesis_words m - reference_words m ≤ edits)%nat
           ∧ (edits ≤ reference_words m `max` hypothesis_words m)%nat.
Proof.
  eexists. split; [vm_compute; reflexivity|]. split; [reflexivity|].
  apply (wer_bounds "fox" "the quick brown fox"). vm_compute. reflexivity.
Defined.

(** ** More on the batch *)

(** *** The outcomes of [transcribe_audio] *)

Lemma transcribe_audio_cases w path :
  ((path ∉ audio_files w)
   ∧ transcribe_audio w path = ([PrintTranscribing path], Raised (OSError path)))
  ∨ (path ∈ audio_files w ∧ api w path = ConnectionFailed
     ∧ transcribe_audio w path = ([PrintTranscribing path], Raised ConnectionError))
  ∨ (∃ r, path ∈ audio_files w ∧ api w path = Response r
          ∧ status_code r = 200%Z ∧ json r = None
          ∧ transcribe_audio w path = ([PrintTranscribing path], Raised JSONDecodeError))
  ∨ (∃ r, path ∈ audio_files w ∧ api w path = Response r
          ∧ status_code r ≠ 200%Z
          ∧ transcribe_audio w path
            = ([PrintTranscribing path; PrintErrorStatus (status_code r)],
               Raised (TranscriptionFailed (status_code r) (text r))))
  ∨ (∃ r obj, path ∈ audio_files w ∧ api w path = Response r
              ∧ status_code r = 200%Z ∧ json r = Some obj
              ∧ transcribe_audio w path
                = ([PrintTranscribing path; PrintOK],
                   Returned (default "" (obj !! "text")))).
Proof.
  unfold transcribe_audio.
  destruct (decide (path ∈ audio_files w)) as [Hin|Hout]; [|left; auto].
  right. destruct (api w path) as [|r] eqn:Hapi; [left; auto|].
  right. destruct (decide (status_code r = 200%Z)) as [H200|Hne].
  - destruct (json r) as [obj|] eqn:Hjson.
    + right. right. exists r, obj. auto.
    + left. exists r. auto.
  - right. left. exists r. auto.
Qed.

Lemma transcribe_audio_prints w path :
  Forall (λ ev, is_file_event ev = false) (transcribe_audio w path).1.
Proof.
  destruct (transcribe_audio_cases w path)
    as [[_ ->]|[(_ & _ & ->)|[(r & _ & _ & _ & _ & ->)|[(r & _ & _ & _ & ->)
       |(r & obj & _ & _ & _ & _ & ->)]]]]; repeat constructor.
Qed.

Lemma transcribe_audio_returned w path out transcription :
  transcribe_audio w path = (out, Returned transcription) →
  path ∈ audio_files w
  ∧ out = [PrintTranscribing path; PrintOK]
  ∧ ∃ r obj, api w path = Response r
             ∧ status_code r = 200%Z
             ∧ json r = Some obj
             ∧ transcription = default "" (obj !! "text").
Proof.
  intros H.
  destruct (transcribe_audio_cases w path)
    as [[_ Ht]|[(_ & _ & Ht)|[(r & _ & _ & _ & _ & Ht)|[(r & _ & _ & _ & Ht)
       |(r & obj & Hin & Hapi & H200 & Hjson & Ht)]]]];
    rewrite Ht in H; try discriminate.
  injection H as <- <-. eauto 10.
Qed.

(** X11. [transcribe_audio] returns only when the audio file exists and the
    service answers with status exactly 200 and a JSON object; the
    transcript is the [text] field, or the empty string when that field is
    missing, and the console shows the file and [OK]. *)
Theorem transcribe_audio_returns_inv (w : world) (path : string)
    (out : list event) (transcription : string) :
  transcribe_audio w path = (out, Returned transcription) →
  path ∈ audio_files w
  ∧ out = [PrintTranscribing path; PrintOK]
  ∧ ∃ r obj, api w path = Response r
             ∧ status_code r = 200%Z
             ∧ json r = Some obj
             ∧ transcription = default "" (obj !! "text").
Proof.
  intros H.
  destruct (transcribe_audio_cases w path)
    as [[_ Ht]|[(_ & _ & Ht)|[(r & _ & _ & _ & _ & Ht)|[(r & _ & _ & _ & Ht)
       |(r & obj & Hin & Hapi & H200 & Hjson & Ht)]]]];
    rewrite Ht in H; try discriminate.
  injection H as <- <-. eauto 10.
Qed.

Lemma transcribe_audio_returns_inv_witness :
  "audio/rec1.wav" ∈ audio_files world_missing_audio
  ∧ [PrintTranscribing "audio/rec1.wav"; PrintOK]
    = [PrintTranscribing "audio/rec1.wav"; PrintOK]
  ∧ ∃ r obj, api world_missing_audio "audio/rec1.wav" = Response r
             ∧ status_code r = 200%Z
             ∧ json r = Some obj
             ∧ "The quick red fox." = default "" (obj !! "text").
Proof.
  apply (transcribe_audio_returns_inv world_missing_audio "audio/rec1.wav").
  vm_compute. reflexivity.
Defined.

(** *** One iteration, in general *)

Lemma cached_ground_truth_returned w cache f out cache' reference :
  cached_ground_truth w cache f = (out, Returned (cache', reference)) →
  out = []
  ∧ (consistent w cache →
     consistent w cache'
     ∧ ∃ content, samples w !! f = Some content ∧ reference = str_strip content).
Proof.
  unfold cached_ground_truth, load_ground_truth.
  destruct (cache !! f) as [t|] eqn:Hcache.
  - intros [= <- <- <-]. split; [reflexivity|]. intros Hc. split; [exact Hc|].
    apply (Hc f t Hcache).
  - destruct (samples w !! f) as [content|] eqn:Hsample; [|discriminate].
    intros [= <- <- <-]. split; [reflexivity|]. intros Hc.
    split; [apply consistent_insert; assumption|]. eauto.
Qed.

Lemma cached_ground_truth_raised w cache f out e :
  cached_ground_truth w cache f = (out, Raised e) →
  out = [] ∧ e = OSError f ∧ cache !! f = None ∧ samples w !! f = None.
Proof.
  unfold cached_ground_truth, load_ground_truth.
  destruct (cache !! f) as [t|]; [discriminate|].
  destruct (samples w !! f) as [content|]; [discriminate|].
  intros [= <- <-]. auto.
Qed.

(** The loop body as a function of the outcomes of its three calls. *)
Lemma process_record_eq w total i record st :
  process_record w total i record st
  = let line := PrintProcessing i total (record_id_of record) in
    if decide (audio_path_of record ∈ audio_files w) then
      match cached_ground_truth w (ground_truths st) (sample_file_of record) with
      | (outg, Raised e) => (line :: outg, Raised e)
      | (outg, Returned (cache', reference)) =>
          match transcribe_audio w (audio_path_of record) with
          | (outt, Raised e) =>
              (line :: outg ++ outt ++ [PrintError e],
               Returned {| ground_truths := cache'; results := results st |})
          | (outt, Returned transcription) =>
              match calculate_metrics reference transcription with
              | Raised e => (line :: outg ++ outt, Raised e)
              | Returned m =>
                  (line :: outg ++ outt ++ [PrintWerCer (wer m) (cer m)],
                   Returned
                     {| ground_truths := cache';
                        results :=
                          results st
                          ++ [{| res_id := record_id_of record;
                                 res_sample := default "" (rec_sample record);
                                 res_sample_file := sample_file_of record;
                                 res_annotations := default ∅ (rec_annotations record);
                                 res_duration_seconds :=
                                   default 0%Q (rec_duration_seconds record);
                                 res_transcription := transcription;
                                 res_reference := reference;
                                 res_metrics := m |}] |})
              end
          end
      end
    else ([line; PrintWarningAudioNotFound (audio_path_of record)], Returned st).
Proof.
  unfold process_record. cbv zeta.
  destruct (decide (audio_path_of record ∈ audio_files w)) as [Hin|Hout];
    [|reflexivity].
  destruct (cached_ground_truth _ _ _) as [outg [[cache' reference]|e0]];
    [|reflexivity].
  destruct (transcribe_audio _ _) as [outt [transcription|e1]].
  - cbn [bind ret emit try_except app lift].
    destruct (calculate_metrics reference transcription) as [m|e2];
      cbn [bind ret emit try_except app lift];
      rewrite ?app_nil_r, <- ?app_assoc; reflexivity.
  - cbn [bind ret emit try_except app lift].
    rewrite ?app_nil_r, <- ?app_assoc. reflexivity.
Qed.

(** Every way in which the loop body can end. *)
Lemma process_record_cases w total i record st :
  consistent w (ground_truths st) →
  ∃ out,
    Forall (λ ev, is_file_event ev = false) out
    ∧ ((process_record w total i record st = (out, Returned st)
        ∧ audio_path_of record ∉ audio_files w)
       ∨ (∃ cache' e,
            process_record w total i record st
            = (out, Returned {| ground_truths := cache'; results := results st |})
            ∧ consistent w cache'
            ∧ (transcribe_audio w (audio_path_of record)).2 = Raised e
            ∧ PrintError e ∈ out)
       ∨ (∃ cache' result,
            process_record w total i record st
            = (out, Returned {| ground_truths := cache';
                                results := results st ++ [result] |})
            ∧ consistent w cache'
            ∧ result_of w record result)
       ∨ (∃ e, process_record w total i record st = (out, Raised e)
               ∧ escapes w record e)).
Proof.
  intros Hc. rewrite process_record_eq. cbv zeta.
  destruct (decide (audio_path_of record ∈ audio_files w)) as [Hin|Hout].
  2:{ eexists. split; [|left; split; [reflexivity|exact Hout]]. repeat constructor. }
  destruct (cached_ground_truth w (ground_truths st) (sample_file_of record))
    as [outg [[cache' reference]|e]] eqn:Hcached.
  2:{ apply cached_ground_truth_raised in Hcached as (-> & -> & _ & Hs).
      eexists. split; [|do 3 right; eexists; split; [reflexivity|]].
      - repeat constructor.
      - split; [exact Hin|]. left. auto. }
  apply cached_ground_truth_returned in Hcached as (-> & Hcons).
  destruct (Hcons Hc) as (Hc' & content & Hsample & ->).
  pose proof (transcribe_audio_prints w (audio_path_of record)) as Hprints.
  destruct (transcribe_audio w (audio_path_of record))
    as [outt [transcription|e]] eqn:Ht; cbn [fst] in Hprints.
  - apply transcribe_audio_returned in Ht
      as (_ & -> & r & obj & Hapi & H200 & Hjson & ->).
    destruct (calculate_metrics_cases (str_strip content) (default "" (obj !! "text")))
      as [[He Hr]|(_ & _ & m & Hm & _)]; rewrite ?Hr, ?Hm.
    + eexists. split; [|do 3 right; eexists; split; [reflexivity|]].
      * repeat constructor.
      * split; [exact Hin|]. right. split; [reflexivity|]. eauto.
    + eexists. split; [|do 2 right; left; eexists _, _; split; [reflexivity|]].
      * repeat constructor.
      * split; [exact Hc'|]. unfold result_of. cbn. repeat split; eauto 10.
  - eexists. split; [|right; left; eexists _, _; split; [reflexivity|]].
    + constructor; [reflexivity|]. cbn [app]. apply Forall_app. split; [exact Hprints|].
      repeat constructor.
    + split; [exact Hc'|]. split; [reflexivity|].
      rewrite elem_of_cons, !elem_of_app, list_elem_of_singleton. auto.
Qed.

(** *** The whole loop, in general *)

Lemma for_enumerate_cases w total records :
  ∀ i st,
    consistent w (ground_truths st) →
    ∃ out,
      Forall (λ ev, is_file_event ev = false) out
      ∧ ((∃ st' scored new,
            for_enumerate (process_record w total) i records st = (out, Returned st')
            ∧ consistent w (ground_truths st')
            ∧ results st' = results st ++ new
            ∧ scored `sublist_of` records
            ∧ Forall2 (result_of w) scored new)
         ∨ (∃ e record,
              for_enumerate (process_record w total) i records st = (out, Raised e)
              ∧ record ∈ records
              ∧ escapes w record e)).
Proof.
  induction records as [|record records IH]; intros i st Hc.
  - exists []. split; [constructor|]. left. exists st, [], [].
    rewrite app_nil_r. repeat split; try constructor; auto.
  - cbn [for_enumerate].
    destruct (process_record_cases w total i record st Hc) as (out & Hout & Hcases).
    destruct Hcases
      as [[Hstep _]|[(cache' & e & Hstep & Hc' & _)|[(cache' & result & Hstep & Hc' & Hres)
         |(e & Hstep & Hesc)]]]; rewrite Hstep; cbn [bind].
    + destruct (IH (S i) st Hc) as (out' & Hout' & Hrest).
      exists (out ++ out'). split; [apply Forall_app; auto|].
      destruct Hrest as [(st' & scored & new & -> & Hc'' & Hnew & Hsub & Hall)
                        |(e0 & record0 & -> & Hin0 & Hesc0)].
      * left. exists st', scored, new. repeat split; auto.
        apply sublist_cons, Hsub.
      * right. exists e0, record0. rewrite elem_of_cons. auto.
    + destruct (IH (S i) {| ground_truths := cache'; results := results st |} Hc')
        as (out' & Hout' & Hrest).
      exists (out ++ out'). split; [apply Forall_app; auto|].
      destruct Hrest as [(st' & scored & new & -> & Hc'' & Hnew & Hsub & Hall)
                        |(e0 & record0 & -> & Hin0 & Hesc0)].
      * left. exists st', scored, new. repeat split; auto.
        apply sublist_cons, Hsub.
      * right. exists e0, record0. rewrite elem_of_cons. auto.
    + destruct (IH (S i) {| ground_truths := cache';
                            results := results st ++ [result] |} Hc')
        as (out' & Hout' & Hrest).
      exists (out ++ out'). split; [apply Forall_app; auto|].
      destruct Hrest as [(st' & scored & new & -> & Hc'' & Hnew & Hsub & Hall)
                        |(e0 & record0 & -> & Hin0 & Hesc0)].
      * left. exists st', (record :: scored), (result :: new).
        split; [reflexivity|]. split; [exact Hc''|].
        split; [rewrite Hnew; cbn [results]; rewrite <- app_assoc; reflexivity|].
        split; [apply sublist_skip, Hsub|]. constructor; assumption.
      * right. exists e0, record0. rewrite elem_of_cons. auto.
    + exists out. split; [exact Hout|]. right. exists e, record.
      rewrite elem_of_cons. auto.
Qed.

Lemma run_evaluation_eq w records :
  load_metadata w = ret records →
  run_evaluation w
  = match for_enumerate (process_record w (length records)) 1 records initial_state with
    | (out, Returned st) =>
        (PrintLoadingMetadata :: PrintFound (length records) :: out,
         Returned (results st))
    | (out, Raised e) =>
        (PrintLoadingMetadata :: PrintFound (length records) :: out, Raised e)
    end.
Proof.
  intros Hmeta. rewrite (run_evaluation_unfold _ _ Hmeta).
  destruct (for_enumerate _ _ _ _) as [out [st|e]]; cbn [fst snd bind ret];
    rewrite ?app_nil_r; reflexivity.
Qed.

Lemma load_metadata_cases w :
  (∃ records, load_metadata w = ret records)
  ∨ (load_metadata w = raise (OSError "metadata.jsonl")
     ∧ run_evaluation w = ([PrintLoadingMetadata], Raised (OSError "metadata.jsonl"))).
Proof.
  unfold run_evaluation, load_metadata.
  destruct (metadata_file w) as [lines|]; [left; eauto|right; auto].
Qed.

Lemma run_evaluation_cases w records :
  load_metadata w = ret records →
  ∃ out,
    Forall (λ ev, is_file_event ev = false) out
    ∧ ((∃ rs scored,
          run_evaluation w = (out, Returned rs)
          ∧ scored `sublist_of` records
          ∧ Forall2 (result_of w) scored rs)
       ∨ (∃ e record, run_evaluation w = (out, Raised e)
                      ∧ record ∈ records
                      ∧ escapes w record e)).
Proof.
  intros Hmeta. rewrite (run_evaluation_eq _ _ Hmeta).
  destruct (for_enumerate_cases w (length records) records 1 initial_state
              (consistent_empty w)) as (out & Hout & Hcases).
  exists (PrintLoadingMetadata :: PrintFound (length records) :: out).
  split; [repeat constructor; exact Hout|].
  destruct Hcases as [(st' & scored & new & -> & _ & Hnew & Hsub & Hall)
                     |(e & record & -> & Hin & Hesc)].
  - left. exists (results st'), scored. rewrite Hnew. cbn. auto.
  - right. eauto.
Qed.

Lemma run_evaluation_prints w :
  Forall (λ ev, is_file_event ev = false) (run_evaluation w).1.
Proof.
  destruct (load_metadata_cases w) as [[records Hmeta]|[_ ->]];
    [|repeat constructor].
  destruct (run_evaluation_cases w records Hmeta)
    as (out & Hout & [(rs & scored & -> & _)|(e & record & -> & _)]); exact Hout.
Qed.

(** X12. When [run_evaluation] returns, its results correspond, one to one
    and in order, to a sublist of the metadata records: each result copies
    the id, sample, sample file, annotations and duration of its record
    (with the defaults of [record.get]), its reference is the stripped text
    of the sample file, its transcription is the text of a 200 answer for
    the record's audio file, and its metrics are those of
    [calculate_metrics] on that reference and transcription. *)
Theorem results_follow_metadata (w : world) (records : list recording)
    (out : list event) (rs : list result) :
  load_metadata w = ret records →
  run_evaluation w = (out, Returned rs) →
  ∃ scored,
    scored `sublist_of` records
    ∧ Forall2 (result_of w) scored rs.
Proof.
  intros Hmeta Hrun.
  destruct (run_evaluation_cases w records Hmeta)
    as (out' & _ & [(rs' & scored & Hrun' & Hsub & Hall)|(e & record & Hrun' & _)]);
    rewrite Hrun' in Hrun; [|discriminate].
  injection Hrun as <- <-. eauto.
Qed.

Lemma results_follow_metadata_witness :
  ∃ scored,
    scored `sublist_of` demo_records
    ∧ Forall2 (result_of world_missing_audio) scored
        (returned_results (run_evaluation world_missing_audio)).
Proof.
  apply (results_follow_metadata world_missing_audio demo_records
           (run_evaluation world_missing_audio).1).
  - reflexivity.
  - vm_compute. reflexivity.
Defined.



(** *** Errors and the program *)

(** X14. Whatever [transcribe_audio] raises (a connection error, a body that
    is not JSON, a failed status), the loop body prints the error as its
    last line, leaves the result list unchanged and returns. *)
Theorem transcription_error_skipped (w : world) (total i : nat)
    (record : recording) (st : loop_state) (e : exn) :
  audio_path_of record ∈ audio_files w →
  is_Some (ground_truths st !! sample_file_of record)
  ∨ is_Some (samples w !! sample_file_of record) →
  (transcribe_audio w (audio_path_of record)).2 = Raised e →
  ∃ out st',
    process_record w total i record st = (out, Returned st')
    ∧ results st' = results st
    ∧ last out = Some (PrintError e).
Proof.
  intros Hin Havail Hraised. rewrite process_record_eq. cbv zeta.
  rewrite decide_True by exact Hin.
  destruct (cached_ground_truth_available w _ _ Havail)
    as (cache' & reference & -> & _).
  cbn [ret]. destruct (transcribe_audio w (audio_path_of record)) as [outt r].
  cbn [snd] in Hraised. subst r.
  eexists _, _. split; [reflexivity|]. split; [reflexivity|].
  cbn [app]. rewrite last_cons, last_snoc. reflexivity.
Qed.

Lemma transcription_error_skipped_witness :
  ∃ out st',
    process_record world_bad_json 3 2 (demo_recording "rec2" "dog.txt") initial_state
    = (out, Returned st')
    ∧ results st' = results initial_state
    ∧ last out = Some (PrintError JSONDecodeError).
Proof.
  apply (transcription_error_skipped world_bad_json 3 2
           (demo_recording "rec2" "dog.txt") initial_state JSONDecodeError).
  - vm_compute. reflexivity.
  - right. exists "The lazy dog.". vm_compute. reflexivity.
  - vm_compute. reflexivity.
Defined.

(** X15. When a sample text has an empty normal form (an empty or
    punctuation-only file) and the transcription of its record succeeds,
    the [ValueError] of the metric library leaves [run_evaluation] right
    after the [OK] of that transcription; the records that follow are not
    processed. *)
Theorem empty_reference_escapes (w : world) (pre : list recording)
    (record : recording) (post : list recording) (st : loop_state)
    (content : string) (r : response) (obj : gmap string string) :
  let total := length (pre ++ record :: post) in
  let before := for_enumerate (process_record w total) 1 pre initial_state in
  load_metadata w = ret (pre ++ record :: post) →
  before.2 = Returned st →
  audio_path_of record ∈ audio_files w →
  samples w !! sample_file_of record = Some content →
  normalize_text (str_strip content) = "" →
  api w (audio_path_of record) = Response r →
  status_code r = 200%Z →
  json r = Some obj →
  run_evaluation w
  = ([PrintLoadingMetadata; PrintFound total] ++ before.1
       ++ [PrintProcessing (S (length pre)) total (record_id_of record);
           PrintTranscribing (audio_path_of record); PrintOK],
     Raised (ValueError "one or more references are empty strings")).
Proof.
  intros total before Hmeta Hbefore Hin Hsample Hnorm Hapi H200 Hjson.
  rewrite (run_evaluation_unfold _ _ Hmeta). fold total.
  rewrite for_enumerate_app. fold before.
  destruct (for_enumerate_cases w total pre 1 initial_state (consistent_empty w))
    as (out & _ & [(st' & scored & new & Hloop & Hc & _)|(e & record0 & Hloop & _)]);
    fold before in Hloop; rewrite Hloop in Hbefore |- *; cbn [snd] in Hbefore;
    [|discriminate].
  injection Hbefore as ->. cbn [bind for_enumerate fst].
  rewrite process_record_eq. cbv zeta. rewrite decide_True by exact Hin.
  destruct (cached_ground_truth_available w (ground_truths st) (sample_file_of record))
    as (cache' & reference & -> & Hcons); [right; eauto|].
  destruct (Hcons Hc) as (_ & content' & Hsample' & ->).
  assert (content' = content) as -> by congruence.
  cbn [ret]. rewrite (transcribe_audio_ok _ _ r obj) by assumption.
  rewrite (calculate_metrics_raises _ _ Hnorm). reflexivity.
Qed.

Lemma empty_reference_escapes_witness :
  run_evaluation world_blank_sample
  = ([PrintLoadingMetadata; PrintFound 3]
       ++ (for_enumerate (process_record world_blank_sample 3) 1
             [demo_recording "rec1" "fox.txt"] initial_state).1
       ++ [PrintProcessing 2 3 "rec2"; PrintTranscribing "audio/rec2.wav"; PrintOK],
     Raised (ValueError "one or more references are empty strings")).
Proof.
  eapply (empty_reference_escapes world_blank_sample
            [demo_recording "rec1" "fox.txt"]
            (demo_recording "rec2" "dog.txt")
            [demo_recording "rec3" "fox.txt"] _ " ... " demo_ok).
  - reflexivity.
  - vm_compute. reflexivity.
  - vm_compute. reflexivity.
  - vm_compute. reflexivity.
  - vm_compute. reflexivity.
  - reflexivity.
  - reflexivity.
  - reflexivity.
Defined.

Lemma module_init_ok w key :
  load_dotenv w !! "FIREWORKS_API_KEY" = Some key → key ≠ "" →
  module_init w = ret key.
Proof.
  intros Hkey Hne. unfold module_init. rewrite Hkey.
  rewrite decide_False by exact Hne. reflexivity.
Qed.

Lemma save_results_returns stamp rs : (save_results stamp rs).2 = Returned tt.
Proof.
  destruct rs as [|r rs]; [reflexivity|]. apply save_results_cons.
Qed.

(** X16. When an error leaves [run_evaluation], the program ends with that
    error and its whole trace is that of [run_evaluation], which holds no
    directory creation and no file write: the results of the records
    scored before the error are not saved. *)
Theorem nothing_saved_on_error (w : world) (stamp key : string) (e : exn) :
  load_dotenv w !! "FIREWORKS_API_KEY" = Some key → key ≠ "" →
  (run_evaluation w).2 = Raised e →
  main w stamp = ((run_evaluation w).1, Raised e)
  ∧ Forall (λ ev, is_file_event ev = false) (run_evaluation w).1.
Proof.
  intros Hkey Hne Hraised. split; [|apply run_evaluation_prints].
  unfold main. rewrite (module_init_ok _ _ Hkey Hne). cbn [bind ret].
  destruct (run_evaluation w) as [out r]. cbn [snd fst] in *. subst r.
  reflexivity.
Qed.

Lemma nothing_saved_on_error_witness :
  main world_missing_sample "20250101_120000"
  = ((run_evaluation world_missing_sample).1, Raised (OSError "dog.txt"))
  ∧ Forall (λ ev, is_file_event ev = false) (run_evaluation world_missing_sample).1.
Proof.
  apply (nothing_saved_on_error world_missing_sample "20250101_120000" "secret").
  - vm_compute. reflexivity.
  - discriminate.
  - vm_compute. reflexivity.
Defined.

(** X17. With a credential, when [run_evaluation] returns, the program prints
    what [run_evaluation] prints, then does what [save_results] does on the
    returned results, and ends normally. *)
Theorem main_runs_then_saves (w : world) (stamp key : string)
    (out : list event) (rs : list result) :
  load_dotenv w !! "FIREWORKS_API_KEY" = Some key → key ≠ "" →
  run_evaluation w = (out, Returned rs) →
  main w stamp = (out ++ (save_results stamp rs).1, Returned tt).
Proof.
  intros Hkey Hne Hrun. unfold main.
  rewrite (module_init_ok _ _ Hkey Hne), Hrun. cbn [bind ret].
  pose proof (save_results_returns stamp rs) as Hret.
  destruct (save_results stamp rs) as [out' r]. cbn [snd fst] in *. subst r.
  reflexivity.
Qed.

Lemma main_runs_then_saves_witness :
  main world_missing_audio "20250101_120000"
  = ((run_evaluation world_missing_audio).1
       ++ (save_results "20250101_120000"
             (returned_results (run_evaluation world_missing_audio))).1,
     Returned tt).
Proof.
  apply (main_runs_then_saves world_missing_audio "20250101_120000" "secret").
  - vm_compute. reflexivity.
  - discriminate.
  - vm_compute. reflexivity.
Defined.

(** X18. A [FIREWORKS_API_KEY] that is set to the empty string is rejected
    like a missing one: [ValueError] at start-up, nothing printed. *)
Theorem empty_credential_is_fatal (w : world) (stamp : string) :
  load_dotenv w !! "FIREWORKS_API_KEY" = Some "" →
  main w stamp
  = ([], Raised (ValueError "FIREWORKS_API_KEY not found in environment")).
Proof. intros Hkey. unfold main, module_init. rewrite Hkey. reflexivity. Qed.

Lemma empty_credential_is_fatal_witness :
  main world_empty_credential "20250101_120000"
  = ([], Raised (ValueError "FIREWORKS_API_KEY not found in environment")).
Proof.
  apply (empty_credential_is_fatal world_empty_credential "20250101_120000").
  vm_compute. reflexivity.
Defined.

(** ** More on [save_results] *)

(** *** Groups *)

Lemma group_append_fst key w groups :
  (group_append key w groups).*1
  = if decide (key ∈ groups.*1) then groups.*1 else groups.*1 ++ [key].
Proof.
  induction groups as [|[k ws] groups IH]; [reflexivity|].
  cbn [group_append]. destruct (decide (k = key)) as [->|Hne].
  - cbn [fmap list_fmap fst]. rewrite decide_True; [reflexivity|].
    apply elem_of_cons. auto.
  - cbn [fmap list_fmap fst] in *. rewrite IH.
    destruct (decide (key ∈ groups.*1)) as [Hin|Hout].
    + rewrite decide_True; [reflexivity|]. apply elem_of_cons. auto.
    + rewrite decide_False; [reflexivity|].
      rewrite elem_of_cons. intros [->|?]; contradiction.
Qed.

Lemma group_append_NoDup key w groups :
  NoDup groups.*1 → NoDup (group_append key w groups).*1.
Proof.
  intros Hnd. rewrite group_append_fst. case_decide; [exact Hnd|].
  apply NoDup_app. split; [exact Hnd|]. split; [|apply NoDup_singleton].
  intros k Hk Hk'. apply list_elem_of_singleton in Hk'. subst. contradiction.
Qed.

Lemma group_append_elem key w groups k ws :
  NoDup groups.*1 →
  (k, ws) ∈ group_append key w groups →
  (k ≠ key ∧ (k, ws) ∈ groups)
  ∨ (k = key ∧ ∃ ws0, (key, ws0) ∈ groups ∧ ws = ws0 ++ [w])
  ∨ (k = key ∧ (key ∉ groups.*1) ∧ ws = [w]).
Proof.
  induction groups as [|[k' ws'] groups IH]; intros Hnd Hin.
  - cbn in Hin. apply list_elem_of_singleton in Hin. injection Hin as -> ->.
    right. right. split; [reflexivity|]. split; [apply not_elem_of_nil|reflexivity].
  - cbn [fmap list_fmap fst] in Hnd. apply NoDup_cons in Hnd as [Hk' Hnd].
    cbn [group_append] in Hin. destruct (decide (k' = key)) as [Hkey|Hkey].
    + subst k'. apply elem_of_cons in Hin as [Heq|Hin].
      * injection Heq as -> ->. right. left. split; [reflexivity|].
        exists ws'. split; [apply elem_of_cons; auto|reflexivity].
      * left. split; [|apply elem_of_cons; auto].
        intros ->. apply Hk'. apply (list_elem_of_fmap_2 fst) in Hin. exact Hin.
    + apply elem_of_cons in Hin as [Heq|Hin].
      * injection Heq as -> ->. left. split; [congruence|apply elem_of_cons; auto].
      * destruct (IH Hnd Hin) as [[Hne Hg]|[(-> & ws0 & Hg & ->)|(-> & Hout & ->)]].
        -- left. split; [exact Hne|apply elem_of_cons; auto].
        -- right. left. split; [reflexivity|]. exists ws0.
           split; [apply elem_of_cons; auto|reflexivity].
        -- right. right. split; [reflexivity|]. split; [|reflexivity].
           cbn [fmap list_fmap fst]. rewrite elem_of_cons.
           intros [?|?]; [congruence|contradiction].
Qed.

Lemma members_snoc field k rs r :
  members field k (rs ++ [r])
  = members field k rs ++ (if decide (key_of field r = k) then [r] else []).
Proof.
  unfold members. rewrite filter_app. f_equal.
Qed.

Lemma members_nil_of_fresh field k rs :
  (∀ r, r ∈ rs → key_of field r ≠ k) → members field k rs = [].
Proof.
  unfold members. induction rs as [|r rs IH]; intros H; [reflexivity|].
  rewrite filter_cons. rewrite decide_False by (apply H, elem_of_cons; auto).
  apply IH. intros r' Hr'. apply H, elem_of_cons. auto.
Qed.

Lemma group_by_snoc field rs r :
  group_by field (rs ++ [r])
  = group_append (key_of field r) (wer (res_metrics r)) (group_by field rs).
Proof. unfold group_by. rewrite foldl_app. reflexivity. Qed.

Lemma group_by_spec field rs :
  NoDup (group_by field rs).*1
  ∧ ∀ k ws, (k, ws) ∈ group_by field rs →
            ws = map (λ r, wer (res_metrics r)) (members field k rs) ∧ ws ≠ [].
Proof.
  induction rs as [|r rs [Hnd IH]] using rev_ind.
  - split; [apply NoDup_nil_2|]. intros k ws Hin. apply elem_of_nil in Hin. contradiction.
  - rewrite group_by_snoc. split; [apply group_append_NoDup, Hnd|].
    intros k ws Hin. rewrite members_snoc.
    apply (group_append_elem _ _ _ _ _ Hnd) in Hin
      as [[Hne Hg]|[(-> & ws0 & Hg & ->)|(-> & Hout & ->)]].
    + destruct (IH k ws Hg) as [-> Hnonempty].
      rewrite decide_False by congruence. rewrite app_nil_r. auto.
    + destruct (IH _ ws0 Hg) as [-> _].
      rewrite decide_True by reflexivity. rewrite map_app. split; [reflexivity|].
      intros H. apply app_eq_nil in H as [_ H]. discriminate.
    + rewrite decide_True by reflexivity. rewrite members_nil_of_fresh.
      * split; [reflexivity|discriminate].
      * intros r' Hr' Hkey. apply Hout. rewrite <- Hkey.
        unfold group_by.
        apply (foldl_group_append_keys (key_of field)). right. eauto.
Qed.

Lemma group_summary_elem groups k stats :
  (k, stats) ∈ group_summary groups ↔
  ∃ ws, (k, ws) ∈ groups ∧ stats = {| count := length ws; group_avg_wer := mean ws |}.
Proof.
  unfold group_summary. rewrite list_elem_of_In, in_map_iff. split.
  - intros ([k' ws] & Heq & Hin). injection Heq as <- <-.
    exists ws. split; [apply list_elem_of_In, Hin|reflexivity].
  - intros (ws & Hin & ->). exists (k, ws). split; [reflexivity|apply list_elem_of_In, Hin].
Qed.

Lemma group_summary_spec field rs k stats :
  (k, stats) ∈ group_summary (group_by field rs) →
  count stats = length (members field k rs)
  ∧ (0 < count stats)%nat
  ∧ group_avg_wer stats = mean (map (λ r, wer (res_metrics r)) (members field k rs)).
Proof.
  intros (ws & Hin & ->)%group_summary_elem.
  destruct (proj2 (group_by_spec field rs) k ws Hin) as [-> Hne].
  cbn [count group_avg_wer]. rewrite length_map. repeat split.
  destruct (members field k rs); [contradiction Hne; reflexivity|cbn; lia].
Qed.

(** X20. In a written summary the keys of [by_pace] are distinct, and so are
    those of [by_background]; the [count] of a group is the number of
    results with that annotation value ([unknown] when missing), it is
    positive, and [avg_wer] is [sum / len] of the WERs of those results in
    their order. *)
Theorem groups_partition_results (stamp : string) (rs : list result) (s : summary) :
  WriteSummary stamp s ∈ (save_results stamp rs).1 →
  NoDup (by_pace s).*1
  ∧ NoDup (by_background s).*1
  ∧ (∀ k stats, (k, stats) ∈ by_pace s →
        count stats = length (members "pace" k rs)
        ∧ (0 < count stats)%nat
        ∧ group_avg_wer stats
          = mean (map (λ r, wer (res_metrics r)) (members "pace" k rs)))
  ∧ (∀ k stats, (k, stats) ∈ by_background s →
        count stats = length (members "background_noise" k rs)
        ∧ (0 < count stats)%nat
        ∧ group_avg_wer stats
          = mean (map (λ r, wer (res_metrics r)) (members "background_noise" k rs))).
Proof.
  intros H. apply write_summary_inv in H as [_ ->].
  cbn [make_summary by_pace by_background].
  rewrite !group_summary_keys.
  split; [apply group_by_spec|]. split; [apply group_by_spec|].
  split; intros k stats; apply group_summary_spec.
Qed.

Lemma groups_partition_results_witness :
  let s := make_summary "20250101_120000" demo_results in
  NoDup (by_pace s).*1
  ∧ NoDup (by_background s).*1
  ∧ (∀ k stats, (k, stats) ∈ by_pace s →
        count stats = length (members "pace" k demo_results)
        ∧ (0 < count stats)%nat
        ∧ group_avg_wer stats
          = mean (map (λ r, wer (res_metrics r)) (members "pace" k demo_results)))
  ∧ (∀ k stats, (k, stats) ∈ by_background s →
        count stats = length (members "background_noise" k demo_results)
        ∧ (0 < count stats)%nat
        ∧ group_avg_wer stats
          = mean (map (λ r, wer (res_metrics r))
                      (members "background_noise" k demo_results))).
Proof.
  apply (groups_partition_results "20250101_120000" demo_results).
  vm_compute. repeat constructor.
Defined.

(** X19. [save_results] always returns normally and always begins by making
    the results directory, writing the detailed results and writing one
    transcript entry per result, in order, with its id, transcription and
    WER; nothing follows exactly when the result list is empty. *)
Theorem save_results_always_writes (stamp : string) (rs : list result) :
  ∃ entries rest,
    save_results stamp rs
    = ([Mkdir; WriteResults stamp rs; PrintResultsSaved stamp;
        WriteTranscripts stamp entries; PrintTranscriptsSaved stamp] ++ rest,
       Returned tt)
    ∧ Forall2 entry_of rs entries
    ∧ (rest = [] ↔ rs = []).
Proof.
  assert (Hentries :
    Forall2 entry_of rs
      (map (λ r, {| te_id := res_id r; te_transcription := res_transcription r;
                    te_wer := wer (res_metrics r) |}) rs)).
  { induction rs as [|r rs IH]; constructor; [repeat split|exact IH]. }
  destruct rs as [|r rs].
  - exists [], []. split; [reflexivity|]. split; [constructor|tauto].
  - eexists _, _. split; [reflexivity|]. split; [exact Hentries|].
    split; discriminate.
Qed.

(** *** Minimum and maximum *)

Lemma foldl_Qmin_le acc xs :
  (foldl Qmin acc xs <= acc)%Q ∧ Forall (λ x, (foldl Qmin acc xs <= x)%Q) xs.
Proof.
  revert acc. induction xs as [|x xs IH]; intros acc; cbn [foldl].
  - split; [apply Qle_refl|constructor].
  - destruct (IH (Qmin acc x)) as [Hacc Hall]. split.
    + eapply Qle_trans; [exact Hacc|apply Q.le_min_l].
    + constructor; [|exact Hall].
      eapply Qle_trans; [exact Hacc|apply Q.le_min_r].
Qed.

Lemma foldl_Qmax_le acc xs :
  (acc <= foldl Qmax acc xs)%Q ∧ Forall (λ x, (x <= foldl Qmax acc xs)%Q) xs.
Proof.
  revert acc. induction xs as [|x xs IH]; intros acc; cbn [foldl].
  - split; [apply Qle_refl|constructor].
  - destruct (IH (Qmax acc x)) as [Hacc Hall]. split.
    + eapply Qle_trans; [apply Q.le_max_l|exact Hacc].
    + constructor; [|exact Hall].
      eapply Qle_trans; [apply Q.le_max_r|exact Hacc].
Qed.

Lemma minimum_le xs : Forall (λ x, (minimum xs <= x)%Q) xs.
Proof.
  destruct xs as [|x xs]; [constructor|]. cbn [minimum].
  destruct (foldl_Qmin_le x xs). constructor; assumption.
Qed.

Lemma maximum_ge xs : Forall (λ x, (x <= maximum xs)%Q) xs.
Proof.
  destruct xs as [|x xs]; [constructor|]. cbn [maximum].
  destruct (foldl_Qmax_le x xs). constructor; assumption.
Qed.

Lemma Qmin_cases x y : Qmin x y = x ∨ Qmin x y = y.
Proof. unfold Qmin, GenericMinMax.gmin. destruct (x ?= y)%Q; auto. Qed.

Lemma Qmax_cases x y : Qmax x y = x ∨ Qmax x y = y.
Proof. unfold Qmax, GenericMinMax.gmax. destruct (x ?= y)%Q; auto. Qed.

Lemma foldl_Qmin_elem acc xs : foldl Qmin acc xs ∈ acc :: xs.
Proof.
  revert acc. induction xs as [|x xs IH]; intros acc; cbn [foldl].
  - apply elem_of_cons. auto.
  - specialize (IH (Qmin acc x)). rewrite !elem_of_cons in *.
    destruct IH as [->|?]; [|auto]. destruct (Qmin_cases acc x) as [->| ->]; auto.
Qed.

Lemma foldl_Qmax_elem acc xs : foldl Qmax acc xs ∈ acc :: xs.
Proof.
  revert acc. induction xs as [|x xs IH]; intros acc; cbn [foldl].
  - apply elem_of_cons. auto.
  - specialize (IH (Qmax acc x)). rewrite !elem_of_cons in *.
    destruct IH as [->|?]; [|auto]. destruct (Qmax_cases acc x) as [->| ->]; auto.
Qed.

Lemma elem_of_map_wer x rs :
  x ∈ map (λ r, wer (res_metrics r)) rs → ∃ r, r ∈ rs ∧ x = wer (res_metrics r).
Proof.
  rewrite list_elem_of_In, in_map_iff. intros (r & <- & Hr).
  exists r. split; [apply list_elem_of_In, Hr|reflexivity].
Qed.

Lemma wers_bounds rs :
  Forall (λ x, (minimum (map (λ r, wer (res_metrics r)) rs) <= x)%Q
               ∧ (x <= maximum (map (λ r, wer (res_metrics r)) rs))%Q)
         (map (λ r, wer (res_metrics r)) rs).
Proof.
  pose proof (minimum_le (map (λ r, wer (res_metrics r)) rs)) as Hmin.
  pose proof (maximum_ge (map (λ r, wer (res_metrics r)) rs)) as Hmax.
  rewrite Forall_forall in *. intros x Hx. split; auto.
Qed.

(** X21. In a written summary [min_wer] and [max_wer] are the WERs of two of
    the results, and the WER of every result lies between them. *)
Theorem summary_range (stamp : string) (rs : list result) (s : summary) :
  WriteSummary stamp s ∈ (save_results stamp rs).1 →
  (∃ r, r ∈ rs ∧ min_wer s = wer (res_metrics r))
  ∧ (∃ r, r ∈ rs ∧ max_wer s = wer (res_metrics r))
  ∧ ∀ r, r ∈ rs → (min_wer s <= wer (res_metrics r))%Q
                  ∧ (wer (res_metrics r) <= max_wer s)%Q.
Proof.
  intros H. apply write_summary_inv in H as [Hne ->].
  cbn [make_summary min_wer max_wer].
  split; [|split].
  - apply elem_of_map_wer. destruct rs as [|r rs]; [congruence|].
    cbn [map minimum]. apply foldl_Qmin_elem.
  - apply elem_of_map_wer. destruct rs as [|r rs]; [congruence|].
    cbn [map maximum]. apply foldl_Qmax_elem.
  - pose proof (wers_bounds rs) as Hall. rewrite Forall_forall in Hall.
    intros r Hr. apply Hall.
    apply list_elem_of_In, (in_map (λ r, wer (res_metrics r))), list_elem_of_In, Hr.
Qed.

Lemma summary_range_witness :
  let s := make_summary "20250101_120000" demo_results in
  (∃ r, r ∈ demo_results ∧ min_wer s = wer (res_metrics r))
  ∧ (∃ r, r ∈ demo_results ∧ max_wer s = wer (res_metrics r))
  ∧ ∀ r, r ∈ demo_results → (min_wer s <= wer (res_metrics r))%Q
                            ∧ (wer (res_metrics r) <= max_wer s)%Q.
Proof.
  apply (summary_range "20250101_120000" demo_results).
  vm_compute. repeat constructor.
Defined.

(** *** [sorted] *)

Lemma insert_sorted_Permutation {V} (kv : string * V) l :
  insert_sorted kv l ≡ₚ kv :: l.
Proof.
  induction l as [|kv' l IH]; [reflexivity|].
  cbn [insert_sorted]. destruct (String.leb kv.1 kv'.1); [reflexivity|].
  rewrite IH. apply Permutation_swap.
Qed.

Lemma insert_sorted_HdRel {V} (a kv : string * V) l :
  key_le a kv → HdRel key_le a l → HdRel key_le a (insert_sorted kv l).
Proof.
  intros Ha Hl. destruct l as [|kv' l]; [constructor; exact Ha|].
  cbn [insert_sorted]. destruct (String.leb kv.1 kv'.1).
  - constructor. exact Ha.
  - constructor. inversion Hl. assumption.
Qed.

Lemma insert_sorted_Sorted {V} (kv : string * V) l :
  Sorted key_le l → Sorted key_le (insert_sorted kv l).
Proof.
  induction 1 as [|kv' l Hl IH Hhd]; [repeat constructor|].
  cbn [insert_sorted]. destruct (String.leb kv.1 kv'.1) eqn:Hle.
  - constructor; [constructor; assumption|]. constructor. exact Hle.
  - constructor; [exact IH|]. apply insert_sorted_HdRel; [|exact Hhd].
    unfold key_le. destruct (String.leb_total kv.1 kv'.1); congruence.
Qed.

(** X22. The groups are printed in ascending order of their keys, each
    group once: [sorted_items] is a permutation of the dictionary's items
    and is sorted by key. *)
Theorem sorted_items_sorts {V} (l : list (string * V)) :
  sorted_items l ≡ₚ l ∧ Sorted key_le (sorted_items l).
Proof.
  unfold sorted_items. induction l as [|kv l [IHp IHs]]; cbn [foldr].
  - split; [reflexivity|constructor].
  - split.
    + rewrite insert_sorted_Permutation, IHp. reflexivity.
    + apply insert_sorted_Sorted, IHs.
Qed.
